(** * AvroRowInputFormat: plan execution, plan compilation and plan caching

    A shallow embedding of [src/Processors/Formats/Impl/AvroRowInputFormat.h].

    The header defines [AvroDeserializer::Action] together with its inline
    [execute] method; these are embedded from the C++ text.  The bodies of
    [AvroDeserializer::AvroDeserializer], [createAction], [createSkipFn] and
    [AvroConfluentRowInputFormat::getOrCreateDeserializer] live in the
    translation unit, which is not part of the header; their embeddings are
    marked as modelled from the specification.

    The file has the definitions first: the execution of actions, schema
    graphs, skip plans, plan compilation, the deserializer cache, a small
    decoder to run them on, and the notions the statements use.  The
    properties follow in the same order. *)

From Stdlib Require Import ZArith String.
From stdpp Require Import base option list gmap strings.


Set Warnings "-register-all".
Local Open Scope Z_scope.

(** ** Exceptions and outcomes *)

(** [DB::Exception(message, code)]. *)
Record Exception := mkException { message : string; code : Z }.

(** A C++ call either returns a value or leaves by throwing.  Whatever the
    callee did to the objects it received by reference before leaving stays
    done, so the effect on the state is described next to the outcome, not
    inside it. *)
Inductive Outcome (A : Type) :=
| Return (a : A)
| Throw (e : Exception).
Arguments Return {A} a.
Arguments Throw {A} e.

(** [namespace ErrorCodes { extern const int INCORRECT_DATA; }]: the value is
    defined in another translation unit and is kept as a parameter. *)
Class ErrorCodes := { INCORRECT_DATA : Z }.

(** [avro::Decoder] is an abstract class; the only method the header calls on
    it directly is [decodeUnionIndex], which advances the decoder and returns
    a [size_t]. *)
Class AvroDecoder (Decoder : Type) :=
  { decodeUnionIndex : Decoder -> Decoder * Outcome N }.

(** ** Actions *)

(** [std::function<void(IColumn & column, avro::Decoder & decoder)>] *)
Definition DeserializeFn (Column Decoder : Type) : Type :=
  Column -> Decoder -> Column * Decoder * Outcome unit.

(** [std::function<void(avro::Decoder & decoder)>] *)
Definition SkipFn (Decoder : Type) : Type :=
  Decoder -> Decoder * Outcome unit.

(** [struct Action]: the [type] tag together with the members that the
    constructor for that tag initialises.  [Record] and [Union] are built by
    [recordAction] and [unionAction] through the private constructor. *)
Inductive Action (Column Decoder : Type) :=
| Noop
| Deserialize (target_column_idx : Z) (deserialize_fn : DeserializeFn Column Decoder)
| Skip (skip_fn : SkipFn Decoder)
| Record_ (actions : list (Action Column Decoder))
| Union (actions : list (Action Column Decoder)).
Arguments Noop {Column Decoder}.
Arguments Deserialize {Column Decoder} target_column_idx deserialize_fn.
Arguments Skip {Column Decoder} skip_fn.
Arguments Record_ {Column Decoder} actions.
Arguments Union {Column Decoder} actions.

Definition recordAction {Column Decoder} (field_actions : list (Action Column Decoder))
  : Action Column Decoder := Record_ field_actions.

Definition unionAction {Column Decoder} (branch_actions : list (Action Column Decoder))
  : Action Column Decoder := Union branch_actions.

(** ** The state [execute] works on *)

(** Modelled from the spec: [RowReadExtension] is declared in
    [IRowInputFormat.h]; the Row Result records, for each column index,
    whether the column was written for this row. *)
Record RowReadExtension := mkExt { read_columns : list bool }.

(** The three objects [execute] receives by reference. *)
Record ExecState (Column Decoder : Type) := mkState
  { columns : list Column;
    decoder : Decoder;
    ext : RowReadExtension }.
Arguments mkState {Column Decoder} columns decoder ext.
Arguments columns {Column Decoder} e.
Arguments decoder {Column Decoder} e.
Arguments ext {Column Decoder} e.

(** What a call of [execute] amounts to: it finishes (by returning or by
    throwing) in some state, or it has no defined behaviour because a
    [std::vector] was indexed outside its bounds. *)
Inductive Result (Column Decoder : Type) :=
| Finished (st : ExecState Column Decoder) (o : Outcome unit)
| Undefined.
Arguments Finished {Column Decoder} st o.
Arguments Undefined {Column Decoder}.

(** [v[i]] for an [int] index [i]: the index is converted to [size_t], so a
    negative one is out of bounds like one that is too large. *)
Definition vector_at {A : Type} (v : list A) (i : Z) : option A :=
  if i <? 0 then None else v !! Z.to_nat i.

Definition vector_set {A : Type} (v : list A) (i : Z) (x : A) : list A :=
  <[Z.to_nat i := x]> v.

Definition in_bounds {A : Type} (v : list A) (i : Z) : bool :=
  (0 <=? i) && (i <? Z.of_nat (length v)).

Section Execution.
Context {Column Decoder : Type} `{!AvroDecoder Decoder} `{!ErrorCodes}.

Definition set_columns (st : ExecState Column Decoder) (cs : list Column) :=
    mkState cs (decoder st) (ext st).
Definition set_decoder (st : ExecState Column Decoder) (d : Decoder) :=
    mkState (columns st) d (ext st).
Definition set_read (st : ExecState Column Decoder) (i : Z) :=
    mkState (columns st) (decoder st)
            (mkExt (vector_set (read_columns (ext st)) i true)).

  (** [Action::execute]. *)
Fixpoint execute (a : Action Column Decoder) (st : ExecState Column Decoder)
    : Result Column Decoder :=
    match a with
    | Noop => Finished st (Return tt)
    | Deserialize target_column_idx deserialize_fn =>
        match vector_at (columns st) target_column_idx with
        | None => Undefined
        | Some column =>
            let '(column', decoder', o) := deserialize_fn column (decoder st) in
            let st' :=
              set_decoder (set_columns st (vector_set (columns st) target_column_idx column'))
                          decoder' in
            match o with
            | Throw e => Finished st' (Throw e)
            | Return _ =>
                if in_bounds (read_columns (ext st')) target_column_idx
                then Finished (set_read st' target_column_idx) (Return tt)
                else Undefined
            end
        end
    | Skip skip_fn =>
        let '(decoder', o) := skip_fn (decoder st) in
        Finished (set_decoder st decoder') o
    | Record_ actions =>
        (fix each (todo : list (Action Column Decoder)) (st : ExecState Column Decoder) :=
           match todo with
           | [] => Finished st (Return tt)
           | action :: rest =>
               match execute action st with
               | Finished st' (Return _) => each rest st'
               | stopped => stopped
               end
           end) actions st
    | Union actions =>
        let '(decoder', o) := decodeUnionIndex (decoder st) in
        let st' := set_decoder st decoder' in
        match o with
        | Throw e => Finished st' (Throw e)
        | Return index =>
            if (N.of_nat (length actions) <=? index)%N
            then Finished st' (Throw (mkException "Union index out of boundary" INCORRECT_DATA))
            else
              (fix at_ (v : list (Action Column Decoder)) (i : nat) :=
                 match v, i with
                 | [], _ => Undefined
                 | action :: _, O => execute action st'
                 | _ :: rest, S j => at_ rest j
                 end) actions (N.to_nat index)
        end
    end.

End Execution.

(** Named forms of the two loops inside [execute]. *)
Section ExecutionLoops.
Context {Column Decoder : Type} `{!AvroDecoder Decoder} `{!ErrorCodes}.

  (** [for (const auto & action : actions) action.execute(columns, decoder, ext);] *)
Fixpoint execute_each (todo : list (Action Column Decoder))
           (st : ExecState Column Decoder) : Result Column Decoder :=
    match todo with
    | [] => Finished st (Return tt)
    | action :: rest =>
        match execute action st with
        | Finished st' (Return _) => execute_each rest st'
        | stopped => stopped
        end
    end.

  (** [actions[index].execute(columns, decoder, ext);] *)
Fixpoint execute_at (v : list (Action Column Decoder)) (i : nat)
           (st : ExecState Column Decoder) : Result Column Decoder :=
    match v, i with
    | [], _ => Undefined
    | action :: _, O => execute action st
    | _ :: rest, S j => execute_at rest j st
    end.

  (** The column indices that some [Deserialize] node of an action tree
      targets. *)
Fixpoint targets (a : Action Column Decoder) : list Z :=
    match a with
    | Noop => []
    | Deserialize target_column_idx _ => [target_column_idx]
    | Skip _ => []
    | Record_ actions | Union actions =>
        (fix all (l : list (Action Column Decoder)) : list Z :=
           match l with
           | [] => []
           | x :: r => targets x ++ all r
           end) actions
    end.

  (** Structural induction on action trees, with the hypothesis available
    for every element of a [Record_] or [Union] vector. *)
Fixpoint Action_forall_ind (P : Action Column Decoder -> Prop)
    (HNoop : P Noop)
    (HDeserialize : forall i f, P (Deserialize i f))
    (HSkip : forall f, P (Skip f))
    (HRecord : forall l, Forall P l -> P (Record_ l))
    (HUnion : forall l, Forall P l -> P (Union l))
    (a : Action Column Decoder) {struct a} : P a :=
  let all :=
    fix go (l : list (Action Column Decoder)) : Forall P l :=
      match l with
      | [] => @List.Forall_nil _ P
      | x :: r =>
          @List.Forall_cons _ P x r
            (Action_forall_ind P HNoop HDeserialize HSkip HRecord HUnion x) (go r)
      end in
  match a with
  | Noop => HNoop
  | Deserialize i f => HDeserialize i f
  | Skip f => HSkip f
  | Record_ l => HRecord l (all l)
  | Union l => HUnion l (all l)
  end.

(** The children of a record action run one after the other, each from the
    state the one before it returned in. *)
Inductive runs_in_order
  : list (Action Column Decoder) -> ExecState Column Decoder -> ExecState Column Decoder -> Prop :=
| runs_none st : runs_in_order [] st st
| runs_next action rest st st1 st2 :
    execute action st = Finished st1 (Return tt) ->
    runs_in_order rest st1 st2 ->
    runs_in_order (action :: rest) st st2.

(** The reading of the actions in the specification (sections 3 and 4.2),
    written without [execute]: what it is for an action to run to its end
    and return.  A Noop has nothing to do; a Deserialize decodes one value
    into its column and marks the column written; a Skip consumes one value;
    a Record has its children run in the order of the fields, each once and
    each from where the one before it left off; a Union reads a discriminant
    and has the branch it selects run. *)
Inductive runs_to : Action Column Decoder -> ExecState Column Decoder
                    -> ExecState Column Decoder -> Prop :=
| runs_Noop st : runs_to Noop st st
| runs_Deserialize i f st column column' decoder' :
    vector_at (columns st) i = Some column ->
    f column (decoder st) = (column', decoder', Return tt) ->
    in_bounds (read_columns (ext st)) i = true ->
    runs_to (Deserialize i f) st
            (mkState (vector_set (columns st) i column') decoder'
                     (mkExt (vector_set (read_columns (ext st)) i true)))
| runs_Skip f st decoder' :
    f (decoder st) = (decoder', Return tt) ->
    runs_to (Skip f) st (mkState (columns st) decoder' (ext st))
| runs_Record actions st st' :
    fields_run actions st st' ->
    runs_to (Record_ actions) st st'
| runs_Union actions st decoder' index action st' :
    decodeUnionIndex (decoder st) = (decoder', Return index) ->
    actions !! N.to_nat index = Some action ->
    runs_to action (mkState (columns st) decoder' (ext st)) st' ->
    runs_to (Union actions) st st'
with fields_run : list (Action Column Decoder) -> ExecState Column Decoder
                  -> ExecState Column Decoder -> Prop :=
| fields_run_none st : fields_run [] st st
| fields_run_next action rest st st1 st2 :
    runs_to action st st1 ->
    fields_run rest st1 st2 ->
    fields_run (action :: rest) st st2.

End ExecutionLoops.

(** ** Schema graphs and target columns *)

(** [avro::Name], the symbolic name of a named type. *)
Definition Name := string.

Inductive PrimitiveKind :=
| AVRO_NULL | AVRO_BOOL | AVRO_INT | AVRO_LONG
| AVRO_FLOAT | AVRO_DOUBLE | AVRO_BYTES | AVRO_STRING.

(** Modelled from the spec: the Schema Node of [avro/Schema.hh], a tagged
    union over Primitive, Record, Union, Array, Map, Enum and Fixed, where
    Record, Enum and Fixed carry a symbolic name.  A graph has cycles only
    through back-references to a named type by its name; a back-reference
    is a [SymbolicNode], looked up in the symbol table of the schema. *)
Inductive SchemaNode :=
| PrimitiveNode (kind : PrimitiveKind)
| RecordNode (name : Name) (fields : list (string * SchemaNode))
| UnionNode (branches : list SchemaNode)
| ArrayNode (element : SchemaNode)
| MapNode (value : SchemaNode)
| EnumNode (name : Name) (symbols : list string)
| FixedNode (name : Name) (size : N)
| SymbolicNode (name : Name).

(** Modelled from the spec: [avro::ValidSchema], a root node together with
    the named types that symbolic references stand for. *)
Record ValidSchema := mkSchema
  { root : SchemaNode;
    named_types : gmap Name SchemaNode }.

Definition node_name (node : SchemaNode) : option Name :=
  match node with
  | RecordNode name _ | EnumNode name _ | FixedNode name _ => Some name
  | _ => None
  end.

(** Modelled from the spec: [avro::resolveSymbol].  A reference stands for
    the named type of that name; any other node, and a reference that
    stands for no named type, is returned as it is. *)
Definition resolveSymbol (types : gmap Name SchemaNode) (node : SchemaNode)
  : SchemaNode :=
  match node with
  | SymbolicNode name =>
      match types !! name with
      | Some target =>
          match node_name target with
          | Some _ => target
          | None => node
          end
      | None => node
      end
  | _ => node
  end.

(** ** Skip plans: [createSkipFn] and [symbolic_skip_fn_map] *)

(** Modelled from the spec: what a compiled skip function does, as data.
    The closure that [createSkipFn] returns is determined by the shape it
    was built for; [SkipNamed] is the lazily resolved form, which runs
    whatever the memo table holds for that name when the row is read. *)
Inductive SkipPlan :=
| SkipPrimitive (kind : PrimitiveKind)
| SkipEnum
| SkipFixed (size : N)
| SkipRecord (fields : list SkipPlan)
| SkipUnion (branches : list SkipPlan)
| SkipArray (element : SkipPlan)
| SkipMap (value : SkipPlan)
| SkipNamed (name : Name).

(** Modelled from the spec: an entry of the memo table, put there before
    the children of the named type are compiled and completed afterwards. *)
Inductive MemoEntry :=
| InProgress
| Built (plan : SkipPlan).

(** The part of the deserializer that [createSkipFn] works on:
    [symbolic_skip_fn_map], the member [std::map<avro::Name, SkipFn>] of the
    header with its closures as data, and [skip_compilations], a ghost
    field: the names whose skip logic has been compiled, in the order the
    compilations started. *)
Record SkipCompiler := mkSkipCompiler
  { symbolic_skip_fn_map : gmap Name MemoEntry;
    skip_compilations : list Name }.

Definition start_skip (name : Name) (sc : SkipCompiler) : SkipCompiler :=
  mkSkipCompiler (<[name := InProgress]> (symbolic_skip_fn_map sc))
                 (skip_compilations sc ++ [name]).

Definition finish_skip (name : Name) (plan : SkipPlan) (sc : SkipCompiler) : SkipCompiler :=
  mkSkipCompiler (<[name := Built plan]> (symbolic_skip_fn_map sc))
                 (skip_compilations sc).

(** Compile a vector of nodes from left to right with [compile], threading
    the memo table. [None] is "ran out of fuel". *)
Fixpoint skip_each (compile : SchemaNode -> SkipCompiler -> option (SkipPlan * SkipCompiler))
         (nodes : list SchemaNode) (sc : SkipCompiler)
  : option (list SkipPlan * SkipCompiler) :=
  match nodes with
  | [] => Some ([], sc)
  | node :: rest =>
      match compile node sc with
      | None => None
      | Some (plan, sc1) =>
          match skip_each compile rest sc1 with
          | None => None
          | Some (plans, sc2) => Some (plan :: plans, sc2)
          end
      end
  end.

(** Modelled from the spec: the skip logic of one node, with [compile] for
    its children.  A leaf is skipped by the decoder primitive for its shape,
    a record field by field, a union through its discriminant, an array or
    a map item by item. *)
Definition skip_node (compile : SchemaNode -> SkipCompiler -> option (SkipPlan * SkipCompiler))
           (node : SchemaNode) (sc : SkipCompiler)
  : option (SkipPlan * SkipCompiler) :=
  match node with
  | PrimitiveNode kind => Some (SkipPrimitive kind, sc)
  | EnumNode _ _ => Some (SkipEnum, sc)
  | FixedNode _ size => Some (SkipFixed size, sc)
  | RecordNode _ fields =>
      match skip_each compile (fields.*2) sc with
      | Some (plans, sc1) => Some (SkipRecord plans, sc1)
      | None => None
      end
  | UnionNode branches =>
      match skip_each compile branches sc with
      | Some (plans, sc1) => Some (SkipUnion plans, sc1)
      | None => None
      end
  | ArrayNode element =>
      match compile element sc with
      | Some (plan, sc1) => Some (SkipArray plan, sc1)
      | None => None
      end
  | MapNode value =>
      match compile value sc with
      | Some (plan, sc1) => Some (SkipMap plan, sc1)
      | None => None
      end
  | SymbolicNode name => Some (SkipNamed name, sc)
  end.

(** Modelled from the spec: the body of [AvroDeserializer::createSkipFn] is
    not in the header.  Skip-plan construction is memoized per symbolic name
    in an explicit map from name to a lazily resolved action; the entry is
    inserted before recursing into the children, so that a re-encountered
    name points back to the entry, in progress or completed, instead of
    being compiled again.  The recursion follows the schema graph, which may
    be cyclic, so it is driven by [fuel]; [None] means the fuel ran out.  A
    reference that stands for no named type is left to be resolved when the
    row is read. *)
Fixpoint createSkipFn (fuel : nat) (types : gmap Name SchemaNode)
         (root_node : SchemaNode) (sc : SkipCompiler)
  : option (SkipPlan * SkipCompiler) :=
  match fuel with
  | O => None
  | S fuel' =>
      let node := resolveSymbol types root_node in
      match node_name node with
      | None => skip_node (createSkipFn fuel' types) node sc
      | Some name =>
          match symbolic_skip_fn_map sc !! name with
          | Some _ => Some (SkipNamed name, sc)
          | None =>
              match skip_node (createSkipFn fuel' types) node (start_skip name sc) with
              | Some (plan, sc1) => Some (SkipNamed name, finish_skip name plan sc1)
              | None => None
              end
          end
      end
  end.

(** Fuel that is enough for any memo table: the height of the node, plus
    the height of the tallest tree of the schema for each named type that
    can still be entered into the table. *)
Fixpoint node_height (node : SchemaNode) : nat :=
  match node with
  | RecordNode _ fields =>
      S ((fix tallest (l : list (string * SchemaNode)) : nat :=
            match l with
            | [] => O
            | (_, child) :: rest => Nat.max (node_height child) (tallest rest)
            end) fields)
  | UnionNode branches =>
      S ((fix tallest (l : list SchemaNode) : nat :=
            match l with
            | [] => O
            | child :: rest => Nat.max (node_height child) (tallest rest)
            end) branches)
  | ArrayNode element => S (node_height element)
  | MapNode value => S (node_height value)
  | _ => 1%nat
  end.

Fixpoint node_names (node : SchemaNode) : gset Name :=
  match node with
  | RecordNode name fields =>
      {[name]} ∪
      (fix all (l : list (string * SchemaNode)) : gset Name :=
         match l with
         | [] => ∅
         | (_, child) :: rest => node_names child ∪ all rest
         end) fields
  | UnionNode branches =>
      (fix all (l : list SchemaNode) : gset Name :=
         match l with
         | [] => ∅
         | child :: rest => node_names child ∪ all rest
         end) branches
  | ArrayNode element => node_names element
  | MapNode value => node_names value
  | EnumNode name _ | FixedNode name _ => {[name]}
  | _ => ∅
  end.

Definition schema_nodes (types : gmap Name SchemaNode) (node : SchemaNode)
  : list SchemaNode :=
  node :: (map_to_list types).*2.

Definition schema_height (types : gmap Name SchemaNode) (node : SchemaNode) : nat :=
  max_list (node_height <$> schema_nodes types node).

Definition schema_names (types : gmap Name SchemaNode) (node : SchemaNode) : gset Name :=
  ⋃ (node_names <$> schema_nodes types node).

Definition skip_fuel (types : gmap Name SchemaNode) (node : SchemaNode) : nat :=
  S (node_height node + size (schema_names types node) * schema_height types node).

(** ** Plan compilation: [AvroDeserializer] *)

(** Modelled from the spec: the compile-time failures of section 7. *)
Inductive CompileError :=
| StructuralMismatch
| TypeMismatch
| MissingRequiredField.

Inductive Compiled (A : Type) :=
| Ok (a : A)
| Failed (e : CompileError)
| OutOfFuel.
Arguments Ok {A} a.
Arguments Failed {A} e.
Arguments OutOfFuel {A}.

(** Modelled from the spec: [Block], the Target Column Set, is declared in
    [Core/Block.h]: an ordered list of (name, target type) slots. *)
Abbreviation Block DataType := (list (string * DataType)).

(** The path of the root: the default argument of [current_path] in the
    declaration of [createAction], the empty string. *)
Definition root_path : string := EmptyString.

(** Search the Target Column Set for a column with exactly that name. *)
Definition find_column {DataType : Type} (header : Block DataType) (name : string)
  : option (nat * (string * DataType)) :=
  list_find (λ column, column.1 = name) header.

(** The members of [class AvroDeserializer]; the memo table comes with the
    ghost log of [SkipCompiler]. *)
Record AvroDeserializer (Column Decoder : Type) := mkDeserializer
  { column_found : list bool;
    row_action : Action Column Decoder;
    skip_compiler : SkipCompiler }.
Arguments mkDeserializer {Column Decoder} column_found row_action skip_compiler.
Arguments column_found {Column Decoder} a.
Arguments row_action {Column Decoder} a.
Arguments skip_compiler {Column Decoder} a.

Section PlanCompiler.
Context {Column Decoder DataType : Type}.

(** The path-composition rule for nested field names. *)
Variable concatPath : string -> string -> string.

(** [createDeserializeFn] is declared in the header and defined elsewhere:
    it selects a decode operation whose output is assignable to the target
    type, and there is none when the types are incompatible. *)
Variable createDeserializeFn : SchemaNode -> DataType -> option (DeserializeFn Column Decoder).

(** The closure that runs a skip plan on the decoder, through the skip
    primitives of the decoder interface. *)
Variable skipFn : SkipPlan -> SkipFn Decoder.

Variable header : Block DataType.
Variable schema : ValidSchema.
Variable allow_missing_fields : bool.

Definition mark_found (idx : nat) (this : AvroDeserializer Column Decoder) :=
  mkDeserializer (<[idx := true]> (column_found this)) (row_action this) (skip_compiler this).

Definition with_skip_compiler (sc : SkipCompiler) (this : AvroDeserializer Column Decoder) :=
  mkDeserializer (column_found this) (row_action this) sc.

(** Modelled from the spec: the loop of [createAction] over the declared
    fields of a record node, whose body is not in the header (section 4.1).
    The name of the field is joined to the current path and
    the Target Column Set is searched for exactly that name.  On a match a
    Deserialize Action is compiled for the child node against the type of
    the matched column, which fails with TypeMismatch when there is no
    decode operation, and the column is marked found; without a match a
    Skip Action is compiled for the child node. *)
Fixpoint createFields (fields : list (string * SchemaNode)) (current_path : string)
         (this : AvroDeserializer Column Decoder)
  : Compiled (list (Action Column Decoder) * AvroDeserializer Column Decoder) :=
  match fields with
  | [] => Ok ([], this)
  | (field_name, child) :: rest =>
      let field_path := concatPath current_path field_name in
      match
        match find_column header field_path with
        | Some (idx, (_, target_type)) =>
            match createDeserializeFn child target_type with
            | Some deserialize_fn =>
                Ok (Deserialize (Z.of_nat idx) deserialize_fn, mark_found idx this)
            | None => Failed TypeMismatch
            end
        | None =>
            match createSkipFn (skip_fuel (named_types schema) child) (named_types schema)
                               child (skip_compiler this) with
            | Some (plan, sc) => Ok (Skip (skipFn plan), with_skip_compiler sc this)
            | None => OutOfFuel
            end
        end
      with
      | Ok (action, this1) =>
          match createFields rest current_path this1 with
          | Ok (actions, this2) => Ok (action :: actions, this2)
          | Failed e => Failed e
          | OutOfFuel => OutOfFuel
          end
      | Failed e => Failed e
      | OutOfFuel => OutOfFuel
      end
  end.

(** Modelled from the spec: the body of [AvroDeserializer::createAction] is
    not in the header (section 4.1).  As it is declared, it takes [header],
    [node] and [current_path] and works on the members of the deserializer;
    the flag [allow_missing_fields] is not among its inputs.  The node it
    walks must be a Record; each declared field is matched and compiled to a
    Deserialize Action, or compiled to a Skip Action for the child node.
    The named types that the nodes of the library point to come along in
    [schema]. *)
Definition createAction (node : SchemaNode) (current_path : string)
           (this : AvroDeserializer Column Decoder)
  : Compiled (Action Column Decoder * AvroDeserializer Column Decoder) :=
  match node with
  | RecordNode _ fields =>
      match createFields fields current_path this with
      | Ok (field_actions, this1) => Ok (recordAction field_actions, this1)
      | Failed e => Failed e
      | OutOfFuel => OutOfFuel
      end
  | _ => Failed StructuralMismatch
  end.

(** A field of the record has a column of the header matching its path. *)
Definition field_matched (current_path : string) (field : string * SchemaNode) : bool :=
  bool_decide (is_Some (find_column header (concatPath current_path field.1))).

(** Modelled from the spec: the constructor
    [AvroDeserializer(header, schema, allow_missing_fields)] (sections 4.1
    and 8).  The root must be a Record; the found bitmap starts all false
    and accumulates across the walk.  The flag is the constructor's: without
    it, a field for which no match exists, and a target column absent from
    the schema, fail the construction. *)
Definition newAvroDeserializer : Compiled (AvroDeserializer Column Decoder) :=
  let schema_root := root schema in
  match schema_root with
  | RecordNode _ fields =>
      let this := mkDeserializer (replicate (length header) false) Noop
                                 (mkSkipCompiler ∅ []) in
      match createAction schema_root root_path this with
      | Ok (action, this1) =>
          if allow_missing_fields
             || (forallb (field_matched root_path) fields
                 && forallb id (column_found this1))
          then Ok (mkDeserializer (column_found this1) action (skip_compiler this1))
          else Failed MissingRequiredField
      | Failed e => Failed e
      | OutOfFuel => OutOfFuel
      end
  | _ => Failed StructuralMismatch
  end.

(** The paths of the fields of the record the walk is at. *)
Definition record_field_paths (node : SchemaNode) (current_path : string) : list string :=
  match node with
  | RecordNode _ fields => (fun field => concatPath current_path field.1) <$> fields
  | _ => []
  end.

(** The field paths of the schema graph: the path of every field of every
    record of the graph, nested ones joined to the path of their parent. *)
Fixpoint schema_field_paths (node : SchemaNode) (current_path : string) {struct node}
  : list string :=
  match node with
  | RecordNode _ fields =>
      (fix each (l : list (string * SchemaNode)) : list string :=
         match l with
         | [] => []
         | (field_name, child) :: rest =>
             let field_path := concatPath current_path field_name in
             field_path :: schema_field_paths child field_path ++ each rest
         end) fields
  | UnionNode branches =>
      (fix each (l : list SchemaNode) : list string :=
         match l with
         | [] => []
         | branch :: rest => schema_field_paths branch current_path ++ each rest
         end) branches
  | ArrayNode element => schema_field_paths element current_path
  | MapNode value => schema_field_paths value current_path
  | _ => []
  end.

End PlanCompiler.

(** The leaves of an action tree, from left to right. *)
Fixpoint leaves {Column Decoder : Type} (a : Action Column Decoder)
  : list (Action Column Decoder) :=
  match a with
  | Record_ actions | Union actions =>
      (fix all (l : list (Action Column Decoder)) : list (Action Column Decoder) :=
         match l with
         | [] => []
         | x :: r => leaves x ++ all r
         end) actions
  | leaf => [leaf]
  end.

(** Modelled from the spec: what the caller of the deserializer does with
    the Row Result (sections 3 and 4.1).  A column whose written flag is not
    set for the row is filled with a default value; [insertDefault] is the
    operation of the column storage that appends one. *)
Definition fill_defaults {Column Decoder : Type} (insertDefault : Column -> Column)
           (st : ExecState Column Decoder) : list Column :=
  imap (fun i column =>
          match read_columns (ext st) !! i with
          | Some true => column
          | _ => insertDefault column
          end) (columns st).

(** ** The deserializer cache of [AvroConfluentRowInputFormat] *)

(** [using SchemaId = uint32_t;] *)
Definition SchemaId := N.

(** The members of [AvroConfluentRowInputFormat] that
    [getOrCreateDeserializer] works on.  [plan_compilations] is a ghost
    field: the schema ids for which this instance compiled a Plan, in
    order. *)
Record AvroConfluentRowInputFormat (Column Decoder : Type) := mkConfluent
  { deserializer_cache : gmap N (AvroDeserializer Column Decoder);
    plan_compilations : list SchemaId }.
Arguments mkConfluent {Column Decoder} deserializer_cache plan_compilations.
Arguments deserializer_cache {Column Decoder} a.
Arguments plan_compilations {Column Decoder} a.

(** A reader instance as its constructor leaves it: nothing cached. *)
Definition newAvroConfluentRowInputFormat {Column Decoder : Type}
  : AvroConfluentRowInputFormat Column Decoder :=
  mkConfluent ∅ [].

Section DeserializerCache.
Context {Column Decoder : Type}.

(** Resolving a schema id through the registry and compiling a Plan for the
    schema against the header of the reader; either step may throw. *)
Variable compilePlan : SchemaId -> Outcome (AvroDeserializer Column Decoder).

(** Modelled from the spec: the body of
    [AvroConfluentRowInputFormat::getOrCreateDeserializer] is not in the
    header (section 4.4, cache 3).  A Plan is looked up by schema id in the
    cache of this instance and compiled, and entered into the cache, only
    when the id has not been seen by this instance. *)
Definition getOrCreateDeserializer (schema_id : SchemaId)
           (this : AvroConfluentRowInputFormat Column Decoder)
  : Outcome (AvroDeserializer Column Decoder) * AvroConfluentRowInputFormat Column Decoder :=
  match deserializer_cache this !! schema_id with
  | Some deserializer => (Return deserializer, this)
  | None =>
      match compilePlan schema_id with
      | Return deserializer =>
          (Return deserializer,
           mkConfluent (<[schema_id := deserializer]> (deserializer_cache this))
                       (plan_compilations this ++ [schema_id]))
      | Throw e => (Throw e, this)
      end
  end.

(** One reader instance resolving the schema ids of a run of messages. *)
Fixpoint read_messages (schema_ids : list SchemaId)
         (this : AvroConfluentRowInputFormat Column Decoder)
  : AvroConfluentRowInputFormat Column Decoder :=
  match schema_ids with
  | [] => this
  | schema_id :: rest => read_messages rest (getOrCreateDeserializer schema_id this).2
  end.

(** Several reader instances in one process: instance [i] resolves
    [schema_id]; there is no such call on an instance that does not
    exist. *)
Definition reader_call (i : nat) (schema_id : SchemaId)
           (readers : list (AvroConfluentRowInputFormat Column Decoder))
  : option (Outcome (AvroDeserializer Column Decoder)
            * list (AvroConfluentRowInputFormat Column Decoder)) :=
  match readers !! i with
  | Some this =>
      let '(o, this') := getOrCreateDeserializer schema_id this in
      Some (o, <[i := this']> readers)
  | None => None
  end.

End DeserializerCache.

(** ** A small decoder, for running the definitions

    The stream is a list of already separated integers; a column is the list
    of the values appended to it. *)
Module Demo.

Definition end_of_stream : Exception := mkException "EOF reached" 0.

#[export] Instance demo_decoder : AvroDecoder (list Z) :=
  {| decodeUnionIndex d :=
       match d with
       | [] => (d, Throw end_of_stream)
       | x :: rest => (rest, Return (Z.to_N x))
       end |}.

#[export] Instance demo_codes : ErrorCodes := {| INCORRECT_DATA := 117 |}.

Definition read_long : DeserializeFn (list Z) (list Z) :=
  fun column d =>
    match d with
    | [] => (column, d, Throw end_of_stream)
    | x :: rest => (column ++ [x], rest, Return tt)
    end.

Definition skip_long : SkipFn (list Z) :=
  fun d =>
    match d with
    | [] => (d, Throw end_of_stream)
    | _ :: rest => (rest, Return tt)
    end.

Definition state (cols : list (list Z)) (d : list Z) (flags : list bool)
  : ExecState (list Z) (list Z) :=
  mkState cols d (mkExt flags).

(** Every schema shape is decodable into the one column type here, and a
    skip plan skips one integer. *)
Definition demo_deserialize (node : SchemaNode) (ty : unit)
  : option (DeserializeFn (list Z) (list Z)) := Some read_long.

Definition demo_skip (plan : SkipPlan) : SkipFn (list Z) := skip_long.

Definition dotted (parent child : string) : string :=
  if decide (parent = root_path) then child else (parent ++ "." ++ child)%string.

(** [record LinkedList { long value; union { null, LinkedList } next; }] *)
Definition linked_list : SchemaNode :=
  RecordNode "LinkedList"
    [("value", PrimitiveNode AVRO_LONG);
     ("next", UnionNode [PrimitiveNode AVRO_NULL; SymbolicNode "LinkedList"])].

(** [record Row { long id; LinkedList list; }] *)
Definition row_schema : ValidSchema :=
  mkSchema (RecordNode "Row" [("id", PrimitiveNode AVRO_LONG); ("list", linked_list)])
           {["LinkedList" := linked_list]}.

Definition compile_demo (header : Block unit) (allow_missing_fields : bool)
  : Compiled (AvroDeserializer (list Z) (list Z)) :=
  newAvroDeserializer dotted demo_deserialize demo_skip header row_schema
                      allow_missing_fields.

(** Column types that tell whether a long can be decoded into the column:
    [true] for an integer column, [false] for a fixed-width binary one. *)
Definition typed_deserialize (node : SchemaNode) (integer_column : bool)
  : option (DeserializeFn (list Z) (list Z)) :=
  if integer_column then Some read_long else None.

Definition compile_typed (header : Block bool) (allow_missing_fields : bool)
  : Compiled (AvroDeserializer (list Z) (list Z)) :=
  newAvroDeserializer dotted typed_deserialize demo_skip header row_schema
                      allow_missing_fields.

Definition demo_plan (schema_id : SchemaId)
  : Outcome (AvroDeserializer (list Z) (list Z)) :=
  match compile_demo [("id", tt)] true with
  | Ok plan => if (schema_id <? 100)%N then Return plan else Throw end_of_stream
  | _ => Throw end_of_stream
  end.

End Demo.

(** * Notions used in the statements *)

Section ExecutionNotions.
Context {Column Decoder : Type}.
Implicit Types (st : ExecState Column Decoder).

(** What one [Deserialize] step does to the flags and to the columns it is
    not aimed at. *)
Definition frame_of (ts : list Z) st st' : Prop :=
  length (columns st') = length (columns st) /\
  length (read_columns (ext st')) = length (read_columns (ext st)) /\
  (forall n, read_columns (ext st) !! n = Some true ->
             read_columns (ext st') !! n = Some true) /\
  (forall n, Z.of_nat n ∉ ts ->
             columns st' !! n = columns st !! n /\
             read_columns (ext st') !! n = read_columns (ext st) !! n).

(** A tree without [Union] nodes: every node of it runs whenever the tree
    runs to its end. *)
Fixpoint union_free (a : Action Column Decoder) : bool :=
  match a with
  | Record_ actions =>
      (fix all (l : list (Action Column Decoder)) : bool :=
         match l with
         | [] => true
         | x :: r => union_free x && all r
         end) actions
  | Union _ => false
  | _ => true
  end.

(** A tree of [Noop] and [Record] nodes only, such as the default-constructed
    actions of a vector. *)
Fixpoint inert (a : Action Column Decoder) : bool :=
  match a with
  | Noop => true
  | Record_ actions =>
      (fix all (l : list (Action Column Decoder)) : bool :=
         match l with
         | [] => true
         | x :: r => inert x && all r
         end) actions
  | _ => false
  end.

End ExecutionNotions.

Section SkipNotions.
Implicit Types (sc : SkipCompiler) (node : SchemaNode) (types : gmap Name SchemaNode).

(** The ghost log is sound: it lists names of the memo table, each once. *)
Definition log_ok sc : Prop :=
  NoDup (skip_compilations sc) /\
  forall name, name ∈ skip_compilations sc -> is_Some (symbolic_skip_fn_map sc !! name).

(** The memo table only grows, and the log stays sound. *)
Definition grows sc sc' : Prop :=
  (forall name, is_Some (symbolic_skip_fn_map sc !! name) ->
                is_Some (symbolic_skip_fn_map sc' !! name)) /\
  (log_ok sc -> log_ok sc').

(** A compile function that only ever grows the memo table. *)
Definition growing (compile : SchemaNode -> SkipCompiler -> option (SkipPlan * SkipCompiler)) : Prop :=
  forall node sc plan sc', compile node sc = Some (plan, sc') -> grows sc sc'.

(** The compilations logged in [sc'] are those of [sc], or of names in
    [U]. *)
Definition logs_within (U : gset Name) sc sc' : Prop :=
  forall name, name ∈ skip_compilations sc' ->
               name ∈ skip_compilations sc \/ name ∈ U.

(** The nodes directly below a node. *)
Definition children node : list SchemaNode :=
  match node with
  | RecordNode _ fields => fields.*2
  | UnionNode branches => branches
  | ArrayNode element => [element]
  | MapNode value => [value]
  | _ => []
  end.

(** A node no taller than [H] whose named types are all in [U]. *)
Definition bounded (U : gset Name) (H : nat) node : Prop :=
  (node_height node <= H)%nat /\ node_names node ⊆ U.

(** How many names of [U] are not in the memo table yet. *)
Definition remaining (U : gset Name) sc : nat :=
  size (U ∖ dom (symbolic_skip_fn_map sc)).

End SkipNotions.

Section PlanNotions.
Context {Column Decoder DataType : Type}.
Variable concatPath : string -> string -> string.
Variable createDeserializeFn : SchemaNode -> DataType -> option (DeserializeFn Column Decoder).
Variable skipFn : SkipPlan -> SkipFn Decoder.
Variable header : Block DataType.

(** The Action compiled for a field: a Deserialize Action into the matched
    column, with the decode operation selected for the child and the type
    of the column, or a Skip Action when no column matches. *)
Definition field_action (current_path : string) (field : string * SchemaNode)
           (action : Action Column Decoder) : Prop :=
  match find_column header (concatPath current_path field.1) with
  | Some (idx, (_, target_type)) =>
      exists deserialize_fn,
        createDeserializeFn field.2 target_type = Some deserialize_fn /\
        action = Deserialize (Z.of_nat idx) deserialize_fn
  | None => exists plan, action = Skip (skipFn plan)
  end.

(** A matched field has a decode operation into its column. *)
Definition field_decodable (current_path : string) (field : string * SchemaNode) : Prop :=
  match find_column header (concatPath current_path field.1) with
  | Some (idx, (_, target_type)) => is_Some (createDeserializeFn field.2 target_type)
  | None => True
  end.

(** The columns that the fields of a record match, in the order of the
    fields. *)
Definition field_columns (fields : list (string * SchemaNode))
           (current_path : string) : list nat :=
  omap (fun field => fst <$> find_column header (concatPath current_path field.1)) fields.

(** Marking a run of columns found. *)
Definition mark_all (found : list bool) (marks : list nat) : list bool :=
  foldl (fun found idx => <[idx := true]> found) found marks.

End PlanNotions.

Section CacheNotions.
Context {Column Decoder : Type}.

(** The ghost log of a reader is sound: it lists schema ids that are in the
    cache, each once. *)
Definition cache_ok (this : AvroConfluentRowInputFormat Column Decoder) : Prop :=
  NoDup (plan_compilations this) /\
  forall schema_id, schema_id ∈ plan_compilations this ->
                    is_Some (deserializer_cache this !! schema_id).

End CacheNotions.

(** * Properties of plan execution *)

Section ExecutionFacts.
Context {Column Decoder : Type} `{!AvroDecoder Decoder} `{!ErrorCodes}.
Implicit Types (a : Action Column Decoder) (st : ExecState Column Decoder).

Lemma execute_Record actions st :
  execute (Record_ actions) st = execute_each actions st.
Proof. destruct actions; reflexivity. Qed.

Lemma execute_at_fix (actions : list (Action Column Decoder)) n st :
  (fix at_ (v : list (Action Column Decoder)) (i : nat) :=
     match v, i with
     | [], _ => Undefined
     | action :: _, O => execute action st
     | _ :: rest, S j => at_ rest j
     end) actions n = execute_at actions n st.
Proof.
  revert n; induction actions as [|x r IH]; intros [|n]; simpl; auto.
Qed.

Lemma execute_Union actions st :
  execute (Union actions) st =
  let '(decoder', o) := decodeUnionIndex (decoder st) in
  let st' := set_decoder st decoder' in
  match o with
  | Throw e => Finished st' (Throw e)
  | Return index =>
      if (N.of_nat (length actions) <=? index)%N
      then Finished st' (Throw (mkException "Union index out of boundary" INCORRECT_DATA))
      else execute_at actions (N.to_nat index) st'
  end.
Proof.
  simpl. destruct (decodeUnionIndex (decoder st)) as [d [index|e]]; auto.
  destruct (_ <=? _)%N; auto. apply execute_at_fix.
Qed.

Lemma execute_at_lookup (actions : list (Action Column Decoder)) n st :
  execute_at actions n st =
  match actions !! n with
  | Some action => execute action st
  | None => Undefined
  end.
Proof.
  revert n; induction actions as [|x r IH]; intros [|n]; simpl; auto.
Qed.

Lemma targets_Record (actions : list (Action Column Decoder)) :
  targets (Record_ actions) = mjoin (targets <$> actions).
Proof. simpl. induction actions as [|x r IH]; simpl; [done|]. by rewrite IH. Qed.

Lemma targets_Union (actions : list (Action Column Decoder)) :
  targets (Union actions) = mjoin (targets <$> actions).
Proof. simpl. induction actions as [|x r IH]; simpl; [done|]. by rewrite IH. Qed.

Lemma vector_at_lookup {A} (v : list A) (n : nat) :
  vector_at v (Z.of_nat n) = v !! n.
Proof.
  unfold vector_at. destruct (Z.ltb_spec (Z.of_nat n) 0); [lia|].
  by rewrite Nat2Z.id.
Qed.

Lemma vector_at_Some {A} (v : list A) i x :
  vector_at v i = Some x -> 0 <= i /\ v !! Z.to_nat i = Some x.
Proof.
  unfold vector_at. destruct (Z.ltb_spec i 0); [done|]. auto.
Qed.

Lemma in_bounds_spec {A} (v : list A) i :
  in_bounds v i = true <-> 0 <= i /\ (Z.to_nat i < length v)%nat.
Proof. unfold in_bounds. rewrite andb_true_iff, Z.leb_le, Z.ltb_lt. lia. Qed.

Lemma frame_of_refl ts st : frame_of ts st st.
Proof. unfold frame_of. split_and!; auto. Qed.

Lemma frame_of_trans ts st1 st2 st3 :
  frame_of ts st1 st2 -> frame_of ts st2 st3 -> frame_of ts st1 st3.
Proof.
  intros (L1 & L2 & M1 & F1) (L1' & L2' & M2 & F2).
  unfold frame_of. split_and!; [congruence | congruence | auto |].
  intros n Hn. destruct (F1 n Hn), (F2 n Hn). split; congruence.
Qed.

Lemma frame_of_weaken ts ts' st st' :
  (forall i, i ∈ ts -> i ∈ ts') -> frame_of ts st st' -> frame_of ts' st st'.
Proof.
  intros Hsub (L1 & L2 & M & F). unfold frame_of. split_and!; [done..|].
  intros n Hn. apply F. intros Hin. apply Hn, Hsub, Hin.
Qed.

Lemma frame_of_set_decoder ts st d : frame_of ts st (set_decoder st d).
Proof. unfold frame_of. split_and!; auto. Qed.

Lemma frame_of_deserialize i st (column' : Column) d :
  0 <= i ->
  frame_of [i] st (set_decoder (set_columns st (vector_set (columns st) i column')) d).
Proof.
  intros Hi. unfold frame_of, set_decoder, set_columns, vector_set.
  cbn [columns decoder ext read_columns]. rewrite length_insert.
  split_and!; [done..|].
  intros n Hn. split; [|done].
  apply list_lookup_insert_ne. intros <-. apply Hn.
  rewrite Z2Nat.id by lia. set_solver.
Qed.

Lemma frame_of_set_read i st :
  0 <= i -> (Z.to_nat i < length (read_columns (ext st)))%nat ->
  frame_of [i] st (set_read st i).
Proof.
  intros Hi Hb. unfold frame_of, set_read, vector_set.
  cbn [columns decoder ext read_columns]. rewrite length_insert.
  split_and!; [done..| |].
  - intros n Hn. destruct (decide (n = Z.to_nat i)) as [->|Hne].
    + by apply list_lookup_insert_eq.
    + by rewrite list_lookup_insert_ne.
  - intros n Hn. split; [done|].
    apply list_lookup_insert_ne. intros <-. apply Hn.
    rewrite Z2Nat.id by lia. set_solver.
Qed.

Lemma execute_frame a :
  forall st st' o, execute a st = Finished st' o -> frame_of (targets a) st st'.
Proof.
  induction a as [| i f | f | l IH | l IH] using Action_forall_ind; intros st st' o.
  - simpl. intros [= <- ?]. apply frame_of_refl.
  - simpl. destruct (vector_at (columns st) i) as [column|] eqn:Hat; [|done].
    apply vector_at_Some in Hat as [Hi Hat].
    destruct (f column (decoder st)) as [[column' decoder'] [[]|e]].
    + destruct (in_bounds _ i) eqn:Hb; [|done]. intros [= <- ?].
      simpl in Hb. apply in_bounds_spec in Hb as [_ Hb].
      eapply frame_of_trans; [by apply frame_of_deserialize|].
      by apply frame_of_set_read.
    + intros [= <- ?]. by apply frame_of_deserialize.
  - simpl. destruct (f (decoder st)) as [d o']. intros [= <- ?].
    apply frame_of_set_decoder.
  - rewrite execute_Record, targets_Record. revert st.
    induction IH as [|x r Hx _ IHr]; intros st; simpl.
    + intros [= <- ?]. apply frame_of_refl.
    + destruct (execute x st) as [st1 [[]|e]|] eqn:Hx1; [| |done].
      * intros Hr. eapply frame_of_trans.
        -- eapply frame_of_weaken; [|eapply Hx; eauto]. set_solver.
        -- eapply frame_of_weaken; [|eapply IHr; eauto]. set_solver.
      * intros [= <- ?]. eapply frame_of_weaken; [|eapply Hx; eauto]. set_solver.
  - rewrite execute_Union, targets_Union.
    destruct (decodeUnionIndex (decoder st)) as [d [index|e]].
    + destruct (_ <=? _)%N.
      * intros [= <- ?]. apply frame_of_set_decoder.
      * rewrite execute_at_lookup.
        destruct (l !! N.to_nat index) as [x|] eqn:Hl; [|done].
        intros Hx. eapply frame_of_trans; [apply (frame_of_set_decoder _ st d)|].
        eapply frame_of_weaken; [|eapply (proj1 (Forall_lookup _ _) IH); eauto].
        intros j Hj. apply list_elem_of_join. exists (targets x). split; [done|].
        apply list_elem_of_fmap. exists x. split; [done|].
        eapply list_elem_of_lookup_2; eauto.
    + intros [= <- ?]. apply frame_of_set_decoder.
Qed.

(** ** The union discriminant *)

(** C1.  When [decodeUnionIndex] returns an index that is greater than or
    equal to the number of branch actions, executing the Union Action throws
    the exception "Union index out of boundary" with code [INCORRECT_DATA]:
    the behaviour is defined, and no branch is executed, since the columns
    and the Row Result are as before and the decoder is where
    [decodeUnionIndex] left it, whatever the branches are. *)
Theorem union_index_out_of_boundary (actions : list (Action Column Decoder)) st decoder' index :
  decodeUnionIndex (decoder st) = (decoder', Return index) ->
  (N.of_nat (length actions) <= index)%N ->
  execute (Union actions) st =
  Finished (mkState (columns st) decoder' (ext st))
           (Throw (mkException "Union index out of boundary" INCORRECT_DATA)).
Proof.
  intros Hindex Hge. rewrite execute_Union, Hindex.
  destruct (N.leb_spec (N.of_nat (length actions)) index); [done|lia].
Qed.

(** X1.  When [decodeUnionIndex] returns an index below the number of
    branches, executing the Union Action is executing the branch at that
    index, and only it, from the state in which the decoder has moved past
    the discriminant. *)
Lemma union_index_dispatch (actions : list (Action Column Decoder)) st decoder' index action :
  decodeUnionIndex (decoder st) = (decoder', Return index) ->
  actions !! N.to_nat index = Some action ->
  execute (Union actions) st = execute action (set_decoder st decoder').
Proof.
  intros Hindex Hat. rewrite execute_Union, Hindex.
  apply lookup_lt_Some in Hat as Hlt.
  destruct (N.leb_spec (N.of_nat (length actions)) index); [lia|].
  by rewrite execute_at_lookup, Hat.
Qed.

(** ** Deserialize *)

(** C5.  A Deserialize Action with target column index [i] invokes its
    decode operation on the column at index [i] and on the decoder; when the
    operation returns, the column at index [i] is the decoded one, the
    decoder is where the operation left it, and the written flag of column
    [i] is true. *)
Theorem deserialize_writes_column i (f : DeserializeFn Column Decoder) st column column' decoder' :
  vector_at (columns st) i = Some column ->
  in_bounds (read_columns (ext st)) i = true ->
  f column (decoder st) = (column', decoder', Return tt) ->
  let st' := mkState (vector_set (columns st) i column') decoder'
                     (mkExt (vector_set (read_columns (ext st)) i true)) in
  execute (Deserialize i f) st = Finished st' (Return tt)
  /\ vector_at (columns st') i = Some column'
  /\ vector_at (read_columns (ext st')) i = Some true.
Proof.
  intros Hat Hb Hf st'. simpl. rewrite Hat, Hf. simpl. rewrite Hb.
  split; [done|].
  apply vector_at_Some in Hat as [Hi Hat]. apply lookup_lt_Some in Hat.
  apply in_bounds_spec in Hb as [_ Hb].
  unfold vector_at, vector_set, st'; simpl.
  destruct (Z.ltb_spec i 0); [lia|].
  split; by apply list_lookup_insert_eq.
Qed.

(** C10.  When the decode operation of a Deserialize Action throws, the
    exception leaves [execute] before the written flag is touched: the Row
    Result is as it was before. *)
Theorem deserialize_throw_keeps_flags i (f : DeserializeFn Column Decoder) st column column' decoder' e :
  vector_at (columns st) i = Some column ->
  f column (decoder st) = (column', decoder', Throw e) ->
  execute (Deserialize i f) st =
  Finished (mkState (vector_set (columns st) i column') decoder' (ext st)) (Throw e).
Proof. intros Hat Hf. simpl. by rewrite Hat, Hf. Qed.

(** ** Record *)

(** The loop of a record returns exactly when its children return one
    after the other, each from the state the one before it left. *)
Lemma execute_Record_returns (actions : list (Action Column Decoder)) st st' :
  execute (Record_ actions) st = Finished st' (Return tt) <-> runs_in_order actions st st'.
Proof.
  rewrite execute_Record. split.
  - revert st. induction actions as [|x r IH]; intros st; simpl.
    + intros [= <-]. constructor.
    + destruct (execute x st) as [st1 [[]|e]|] eqn:Hx; [|done..].
      intros Hr. econstructor; eauto.
  - induction 1 as [|x r st st1 st2 Hx _ IH]; simpl; [done|]. by rewrite Hx.
Qed.

(** [execute] returns exactly as the actions are read in the
    specification. *)
Lemma execute_returns a :
  forall st st', execute a st = Finished st' (Return tt) <-> runs_to a st st'.
Proof.
  induction a as [| i f | f | l IH | l IH] using Action_forall_ind; intros st st'.
  - simpl. split.
    + intros [= <-]. constructor.
    + by inversion 1.
  - simpl. split.
    + destruct (vector_at (columns st) i) as [column|] eqn:Hat; [|done].
      destruct (f column (decoder st)) as [[column' decoder'] [[]|e]] eqn:Hf; [|done].
      simpl. destruct (in_bounds (read_columns (ext st)) i) eqn:Hb; [|done].
      intros [= <-]. exact (runs_Deserialize i f st column column' decoder' Hat Hf Hb).
    + inversion 1 as [|? ? ? column column' decoder' Hat Hf Hb| | |]; subst.
      rewrite Hat, Hf. simpl. by rewrite Hb.
  - simpl. split.
    + destruct (f (decoder st)) as [d [[]|e]] eqn:Hf; [|done].
      intros [= <-]. exact (runs_Skip f st d Hf).
    + inversion 1 as [| |? ? decoder' Hf| |]; subst. by rewrite Hf.
  - rewrite execute_Record. split.
    + intros Hex. constructor. revert st Hex.
      induction IH as [|x r Hx _ IHr]; intros st; simpl.
      * intros [= <-]. constructor.
      * destruct (execute x st) as [st1 [[]|e]|] eqn:Hx1; [|done..].
        intros Hr. econstructor; [by apply Hx|by apply IHr].
    + intros Hrec. inversion Hrec as [| | |? ? ? Hfields|]; subst. clear Hrec.
      revert st Hfields.
      induction IH as [|x r Hx _ IHr]; intros st Hfields.
      * by inversion Hfields.
      * inversion Hfields as [|? ? ? st1 ? Hrun Hrest]; subst. simpl.
        apply Hx in Hrun. rewrite Hrun. by apply IHr.
  - rewrite execute_Union. split.
    + destruct (decodeUnionIndex (decoder st)) as [d [index|e]] eqn:Hd; [|done].
      destruct (N.leb_spec (N.of_nat (length l)) index); [done|].
      rewrite execute_at_lookup.
      destruct (l !! N.to_nat index) as [x|] eqn:Hl; [|done].
      intros Hx. eapply runs_Union; [done..|].
      by apply (proj1 (Forall_lookup _ _) IH _ _ Hl).
    + inversion 1 as [| | | |? ? decoder' index action ? Hd Hl Hrun]; subst.
      rewrite Hd. apply lookup_lt_Some in Hl as Hlt.
      destruct (N.leb_spec (N.of_nat (length l)) index); [lia|].
      rewrite execute_at_lookup, Hl.
      by apply (proj1 (Forall_lookup _ _) IH _ _ Hl).
Qed.

(** C6.  Executing a Record Action returns exactly when its children, as
    the specification reads them, run each once, in the order in which they
    are stored, every one from the state its predecessor left: a
    Deserialize child has decoded its value into its column, a Skip child
    has consumed its value, and so on down the tree. *)
Theorem record_runs_children_in_order (actions : list (Action Column Decoder)) st st' :
  execute (Record_ actions) st = Finished st' (Return tt) <-> fields_run actions st st'.
Proof.
  rewrite execute_returns. split.
  - by inversion 1.
  - by constructor.
Qed.

(** X3.  A Record Action finishes by throwing exactly when one of its
    children throws after the children before it have run in order and
    returned; the state is the one that child left, and the children after
    it do not run. *)
Lemma record_child_throws (actions : list (Action Column Decoder)) st st' e :
  execute (Record_ actions) st = Finished st' (Throw e) <->
  exists before action after st1,
    actions = before ++ action :: after /\
    runs_in_order before st st1 /\
    execute action st1 = Finished st' (Throw e).
Proof.
  rewrite execute_Record. split.
  - revert st. induction actions as [|x r IH]; intros st; simpl; [done|].
    destruct (execute x st) as [st1 [[]|e1]|] eqn:Hx; [| |done].
    + intros Hr. destruct (IH _ Hr) as (b & a & af & s1 & -> & Hb & Ha).
      exists (x :: b), a, af, s1. split_and!; [done| |done]. econstructor; eauto.
    + intros [= <- <-]. exists [], x, r, st. split_and!; [done| |done]. constructor.
  - intros (b & a & af & s1 & -> & Hb & Ha).
    induction Hb as [|x r s s2 s3 Hx _ IH]; simpl.
    + by rewrite Ha.
    + rewrite Hx. by apply IH.
Qed.

(** ** Skip and Noop *)

(** C7.  A Noop returns in the state it started in.  A Skip runs its skip
    operation on the decoder and finishes the way the operation did; the
    columns and the Row Result are as before. *)
Theorem skip_and_noop_frame :
  (forall st, execute (@Noop Column Decoder) st = Finished st (Return tt)) /\
  (forall (skip_fn : SkipFn Decoder) st,
      execute (Skip skip_fn) st =
      Finished (mkState (columns st) (skip_fn (decoder st)).1 (ext st))
               (skip_fn (decoder st)).2).
Proof.
  split; [done|]. intros f st. simpl. by destruct (f (decoder st)).
Qed.

(** ** The written flags *)

(** C9.  Whatever way the execution of an action tree finishes, a written
    flag that was true is still true, the bitmap has the length it had, and
    a flag changes only at an index that some Deserialize node of the tree
    targets; a tree without Deserialize nodes leaves the Row Result as it
    was. *)
Theorem execute_only_sets_flags a st st' o :
  execute a st = Finished st' o ->
  (forall n, read_columns (ext st) !! n = Some true ->
             read_columns (ext st') !! n = Some true)
  /\ length (read_columns (ext st')) = length (read_columns (ext st))
  /\ (forall n, Z.of_nat n ∉ targets a ->
                read_columns (ext st') !! n = read_columns (ext st) !! n)
  /\ (targets a = [] -> ext st' = ext st).
Proof.
  intros Hex. destruct (execute_frame _ _ _ _ Hex) as (_ & L & M & F).
  split_and!; [done|done| |].
  - intros n Hn. by apply F.
  - intros Hnil. destruct (ext st) as [flags], (ext st') as [flags']. f_equal.
    apply list_eq. intros n. apply F. rewrite Hnil. set_solver.
Qed.

End ExecutionFacts.


(** * Properties of skip-plan compilation *)

Section SkipFacts.
Implicit Types (sc : SkipCompiler) (node : SchemaNode) (types : gmap Name SchemaNode).

Lemma grows_refl sc : grows sc sc.
Proof. by split. Qed.

Lemma grows_trans sc1 sc2 sc3 : grows sc1 sc2 -> grows sc2 sc3 -> grows sc1 sc3.
Proof. intros [D1 L1] [D2 L2]. split; auto. Qed.

Lemma grows_start name sc :
  symbolic_skip_fn_map sc !! name = None -> grows sc (start_skip name sc).
Proof.
  intros Hnone. unfold grows, log_ok, start_skip.
  cbn [symbolic_skip_fn_map skip_compilations]. split.
  - intros n Hn. destruct (decide (name = n)) as [->|Hne].
    + rewrite lookup_insert_eq. eauto.
    + by rewrite lookup_insert_ne.
  - intros [Hnd Hin]. split.
    + apply NoDup_app. split_and!; [done| |apply NoDup_singleton].
      intros n Hn Hn'. apply list_elem_of_singleton in Hn' as ->.
      destruct (Hin _ Hn) as [? Hsome]. congruence.
    + intros n Hn. apply elem_of_app in Hn as [Hn|Hn].
      * destruct (decide (name = n)) as [->|Hne].
        -- rewrite lookup_insert_eq. eauto.
        -- rewrite lookup_insert_ne by done. auto.
      * apply list_elem_of_singleton in Hn as ->. rewrite lookup_insert_eq. eauto.
Qed.

Lemma grows_finish name plan sc : grows sc (finish_skip name plan sc).
Proof.
  assert (forall n, is_Some (symbolic_skip_fn_map sc !! n) ->
                    is_Some (<[name := Built plan]> (symbolic_skip_fn_map sc) !! n)) as Hdom.
  { intros n Hn. destruct (decide (name = n)) as [->|Hne].
    - rewrite lookup_insert_eq. eauto.
    - by rewrite lookup_insert_ne. }
  unfold grows, log_ok, finish_skip.
  cbn [symbolic_skip_fn_map skip_compilations]. split; [done|].
  intros [Hnd Hin]. split; auto.
Qed.

Lemma start_skip_has name sc : is_Some (symbolic_skip_fn_map (start_skip name sc) !! name).
Proof.
  unfold start_skip. cbn [symbolic_skip_fn_map]. rewrite lookup_insert_eq. eauto.
Qed.

(** Threading a preorder on memo tables through the loops. *)
Section Threading.
Variable R : SkipCompiler -> SkipCompiler -> Prop.
Hypothesis R_refl : forall sc, R sc sc.
Hypothesis R_trans : forall sc1 sc2 sc3, R sc1 sc2 -> R sc2 sc3 -> R sc1 sc3.
Variable compile : SchemaNode -> SkipCompiler -> option (SkipPlan * SkipCompiler).

Lemma skip_each_thread nodes :
  (forall child sc plan sc', child ∈ nodes -> compile child sc = Some (plan, sc') -> R sc sc') ->
  forall sc plans sc', skip_each compile nodes sc = Some (plans, sc') -> R sc sc'.
Proof.
  induction nodes as [|x r IH]; intros Hc sc plans sc'; simpl.
  - intros [= _ <-]. apply R_refl.
  - destruct (compile x sc) as [[p sc1]|] eqn:Hx; [|done].
    destruct (skip_each compile r sc1) as [[ps sc2]|] eqn:Hr; [|done].
    intros [= _ <-]. eapply R_trans.
    + eapply Hc; [|exact Hx]. by left.
    + eapply IH; [|exact Hr]. intros c s p' s' Hin. apply Hc. by right.
Qed.

Lemma skip_node_thread node :
  (forall child sc plan sc', child ∈ children node ->
                             compile child sc = Some (plan, sc') -> R sc sc') ->
  forall sc plan sc', skip_node compile node sc = Some (plan, sc') -> R sc sc'.
Proof.
  intros Hc sc plan sc'. destruct node; simpl in *.
  - intros [= _ <-]. apply R_refl.
  - destruct (skip_each _ _ _) as [[ps sc1]|] eqn:He; [|done].
    intros [= _ <-]. eapply skip_each_thread; eauto.
  - destruct (skip_each _ _ _) as [[ps sc1]|] eqn:He; [|done].
    intros [= _ <-]. eapply skip_each_thread; eauto.
  - destruct (compile _ _) as [[p sc1]|] eqn:He; [|done].
    intros [= _ <-]. eapply Hc; [|exact He]. by left.
  - destruct (compile _ _) as [[p sc1]|] eqn:He; [|done].
    intros [= _ <-]. eapply Hc; [|exact He]. by left.
  - intros [= _ <-]. apply R_refl.
  - intros [= _ <-]. apply R_refl.
  - intros [= _ <-]. apply R_refl.
Qed.

End Threading.

Lemma skip_each_grows compile nodes :
  growing compile ->
  forall sc plans sc', skip_each compile nodes sc = Some (plans, sc') -> grows sc sc'.
Proof.
  intros Hc. apply (skip_each_thread grows grows_refl grows_trans). intros; eapply Hc; eauto.
Qed.

Lemma skip_node_grows compile node :
  growing compile ->
  forall sc plan sc', skip_node compile node sc = Some (plan, sc') -> grows sc sc'.
Proof.
  intros Hc. apply (skip_node_thread grows grows_refl grows_trans). intros; eapply Hc; eauto.
Qed.

Lemma createSkipFn_grows fuel types : growing (createSkipFn fuel types).
Proof.
  induction fuel as [|fuel IH]; intros node sc plan sc'; simpl; [done|].
  destruct (node_name (resolveSymbol types node)) as [name|].
  - destruct (symbolic_skip_fn_map sc !! name) eqn:Hm.
    + intros [= _ <-]. apply grows_refl.
    + destruct (skip_node _ _ _) as [[p sc1]|] eqn:Hn; [|done].
      intros [= _ <-].
      eapply grows_trans; [by apply grows_start|].
      eapply grows_trans; [eapply skip_node_grows; eauto|].
      apply grows_finish.
  - apply skip_node_grows, IH.
Qed.

(** A name that is in the memo table is not compiled again: the result is
    the reference to the entry, and nothing changes. *)
Lemma createSkipFn_reuses fuel types node sc name :
  node_name (resolveSymbol types node) = Some name ->
  is_Some (symbolic_skip_fn_map sc !! name) ->
  createSkipFn (S fuel) types node sc = Some (SkipNamed name, sc).
Proof. intros Hname [entry Hentry]. simpl. by rewrite Hname, Hentry. Qed.

(** ** Enough fuel *)

Lemma node_height_Record name fields :
  node_height (RecordNode name fields) = S (max_list (node_height <$> fields.*2)).
Proof.
  simpl. f_equal. induction fields as [|[f c] r IH]; simpl; [done|]. by rewrite IH.
Qed.

Lemma node_height_Union branches :
  node_height (UnionNode branches) = S (max_list (node_height <$> branches)).
Proof.
  simpl. f_equal. induction branches as [|c r IH]; simpl; [done|]. by rewrite IH.
Qed.

Lemma node_names_Record name fields :
  node_names (RecordNode name fields) = {[name]} ∪ ⋃ (node_names <$> fields.*2).
Proof.
  simpl. f_equal. induction fields as [|[f c] r IH]; simpl; [done|]. by rewrite IH.
Qed.

Lemma node_names_Union branches :
  node_names (UnionNode branches) = ⋃ (node_names <$> branches).
Proof.
  simpl. induction branches as [|c r IH]; simpl; [done|]. by rewrite IH.
Qed.

Lemma child_below node child :
  child ∈ children node ->
  (node_height child < node_height node)%nat /\ node_names child ⊆ node_names node.
Proof.
  destruct node as [k|name fields|branches|element|value|name syms|name size|name];
    unfold children; intros Hin; try by apply elem_of_nil in Hin.
  - rewrite node_height_Record, node_names_Record. split.
    + apply Nat.lt_succ_r, max_list_elem_of_le, list_elem_of_fmap. eauto.
    + intros n Hn. apply elem_of_union. right. apply elem_of_union_list.
      exists (node_names child). split; [|done]. apply list_elem_of_fmap. eauto.
  - rewrite node_height_Union, node_names_Union. split.
    + apply Nat.lt_succ_r, max_list_elem_of_le, list_elem_of_fmap. eauto.
    + intros n Hn. apply elem_of_union_list.
      exists (node_names child). split; [|done]. apply list_elem_of_fmap. eauto.
  - apply list_elem_of_singleton in Hin as ->. simpl. split; [lia|done].
  - apply list_elem_of_singleton in Hin as ->. simpl. split; [lia|done].
Qed.

Lemma node_name_in_names node name : node_name node = Some name -> name ∈ node_names node.
Proof.
  destruct node; simpl; intros [= <-]; set_solver.
Qed.

Lemma skip_each_enough compile nodes sc :
  growing compile ->
  (forall child sc1, child ∈ nodes -> grows sc sc1 -> is_Some (compile child sc1)) ->
  is_Some (skip_each compile nodes sc).
Proof.
  intros Hg. revert sc. induction nodes as [|x r IH]; intros sc Hc; simpl; [eauto|].
  destruct (Hc x sc) as [[p sc1] Hx]; [set_solver|apply grows_refl|]. rewrite Hx.
  destruct (IH sc1) as [[ps sc2] Hr].
  { intros c sc' Hin Hsc'. apply Hc; [set_solver|].
    eapply grows_trans; eauto. }
  rewrite Hr. eauto.
Qed.

Lemma skip_node_enough compile node sc :
  growing compile ->
  (forall child sc1, child ∈ children node -> grows sc sc1 -> is_Some (compile child sc1)) ->
  is_Some (skip_node compile node sc).
Proof.
  intros Hg Hc. destruct node; simpl in *; eauto.
  - destruct (skip_each_enough compile (fields.*2) sc Hg Hc) as [[ps sc1] ->]. eauto.
  - destruct (skip_each_enough compile branches sc Hg Hc) as [[ps sc1] ->]. eauto.
  - destruct (Hc node sc) as [[p sc1] ->]; [set_solver|apply grows_refl|]. eauto.
  - destruct (Hc node sc) as [[p sc1] ->]; [set_solver|apply grows_refl|]. eauto.
Qed.

Lemma remaining_grows U sc sc' : grows sc sc' -> (remaining U sc' <= remaining U sc)%nat.
Proof.
  intros [Hdom _]. apply subseteq_size. intros n Hn.
  apply elem_of_difference in Hn as [HU Hn]. apply elem_of_difference. split; [done|].
  intros Hin. apply Hn, elem_of_dom, Hdom, elem_of_dom, Hin.
Qed.

Lemma remaining_start U sc sc' name :
  name ∈ U -> symbolic_skip_fn_map sc !! name = None ->
  grows (start_skip name sc) sc' ->
  (S (remaining U sc') <= remaining U sc)%nat.
Proof.
  intros HU Hnone [Hdom _]. apply subset_size. split.
  - intros n Hn. apply elem_of_difference in Hn as [HnU Hn].
    apply elem_of_difference. split; [done|]. intros Hin. apply Hn.
    apply elem_of_dom, Hdom. destruct (grows_start name sc Hnone) as [Hd _].
    apply Hd, elem_of_dom, Hin.
  - intros Hsub. assert (name ∈ U ∖ dom (symbolic_skip_fn_map sc)) as Hin.
    { apply elem_of_difference. split; [done|]. by apply not_elem_of_dom. }
    apply Hsub, elem_of_difference in Hin as [_ Hin]. apply Hin.
    apply elem_of_dom, Hdom, start_skip_has.
Qed.

Section Fuel.
Variable types : gmap Name SchemaNode.
Variable U : gset Name.
Variable hmax : nat.
Hypothesis types_bounded : forall name node, types !! name = Some node -> bounded U hmax node.

Lemma createSkipFn_enough fuel :
  forall node sc,
    bounded U hmax node ->
    (node_height node + remaining U sc * hmax < fuel)%nat ->
    is_Some (createSkipFn fuel types node sc).
Proof.
  induction fuel as [|fuel IH]; intros node sc [Hh Hn] Hfuel; [lia|].
  pose proof (createSkipFn_grows fuel types) as Hg.
  assert (forall child sc1, child ∈ children node -> grows sc sc1 ->
                            is_Some (createSkipFn fuel types child sc1)) as Hdirect.
  { intros c sc1 Hc Hsc1. destruct (child_below _ _ Hc) as [Hlt Hsub].
    pose proof (remaining_grows U _ _ Hsc1). apply IH.
    - split; [lia|set_solver].
    - nia. }
  destruct node as [k|name fields|branches|element|value|name syms|name size|name].
  - simpl. eauto.
  - (* a record that is not in the table yet *)
    cbn [createSkipFn resolveSymbol node_name].
    destruct (symbolic_skip_fn_map sc !! name) eqn:Hm; [eauto|].
    assert (is_Some (skip_node (createSkipFn fuel types) (RecordNode name fields)
                               (start_skip name sc))) as [[p sc1] Hs].
    { apply skip_node_enough; [done|]. intros c sc1 Hc Hsc1. apply Hdirect; [done|].
      eapply grows_trans; [by apply grows_start|done]. }
    rewrite Hs. eauto.
  - cbn [createSkipFn resolveSymbol node_name]. by apply skip_node_enough.
  - cbn [createSkipFn resolveSymbol node_name]. by apply skip_node_enough.
  - cbn [createSkipFn resolveSymbol node_name]. by apply skip_node_enough.
  - simpl. destruct (symbolic_skip_fn_map sc !! name); eauto.
  - simpl. destruct (symbolic_skip_fn_map sc !! name); eauto.
  - (* a reference *)
    cbn [createSkipFn]. unfold resolveSymbol.
    destruct (types !! name) as [target|] eqn:Ht; [|simpl; eauto].
    destruct (node_name target) as [tname|] eqn:Htn; [|simpl; eauto].
    rewrite Htn. destruct (symbolic_skip_fn_map sc !! tname) eqn:Hm; [eauto|].
    destruct (types_bounded _ _ Ht) as [Hth Htnames].
    assert (is_Some (skip_node (createSkipFn fuel types) target
                               (start_skip tname sc))) as [[p sc1] Hs]; [|rewrite Hs; eauto].
    apply skip_node_enough; [done|].
    intros c sc1 Hc Hsc1. destruct (child_below _ _ Hc) as [Hlt Hsub].
    assert (tname ∈ U) as HtU by (apply Htnames, node_name_in_names, Htn).
    pose proof (remaining_start U sc sc1 tname HtU Hm Hsc1).
    simpl in Hfuel. apply IH.
    + split; [lia|set_solver].
    + nia.
Qed.

End Fuel.

Lemma logs_within_refl U sc : logs_within U sc sc.
Proof. intros name Hn. by left. Qed.

Lemma logs_within_trans U sc1 sc2 sc3 :
  logs_within U sc1 sc2 -> logs_within U sc2 sc3 -> logs_within U sc1 sc3.
Proof.
  intros H12 H23 name Hn. destruct (H23 _ Hn) as [Hn2|?]; [|by right]. by apply H12.
Qed.

Lemma createSkipFn_logs_within types U fuel :
  (forall name node, types !! name = Some node -> node_names node ⊆ U) ->
  forall node sc plan sc',
    node_names node ⊆ U ->
    createSkipFn fuel types node sc = Some (plan, sc') ->
    logs_within U sc sc'.
Proof.
  intros Htypes. induction fuel as [|fuel IH]; intros node sc plan sc' Hnode; [done|].
  cbn [createSkipFn].
  assert (node_names (resolveSymbol types node) ⊆ U) as Hres.
  { destruct node; try done. simpl. destruct (types !! name) as [target|] eqn:Ht; [|done].
    destruct (node_name target); [|done]. eauto. }
  assert (forall sc0 plan0 sc1,
            skip_node (createSkipFn fuel types) (resolveSymbol types node) sc0 = Some (plan0, sc1) ->
            logs_within U sc0 sc1) as Hbody.
  { apply (skip_node_thread (logs_within U) (logs_within_refl U) (logs_within_trans U)).
    intros c s p s' Hc. apply IH. destruct (child_below _ _ Hc) as [_ Hsub].
    intros n Hn. by apply Hres, Hsub. }
  destruct (node_name (resolveSymbol types node)) as [name|] eqn:Hname; [|apply Hbody].
  destruct (symbolic_skip_fn_map sc !! name); [intros [= _ <-]; apply logs_within_refl|].
  destruct (skip_node _ _ _) as [[p sc1]|] eqn:Hn; [|done]. intros [= _ <-].
  intros n Hin. cbn [finish_skip skip_compilations] in Hin.
  destruct (Hbody _ _ _ Hn n Hin) as [Hs|?]; [|by right].
  cbn [start_skip skip_compilations] in Hs. apply elem_of_app in Hs as [?|Hs]; [by left|].
  apply list_elem_of_singleton in Hs as ->. right.
  by apply Hres, node_name_in_names.
Qed.

Lemma schema_nodes_bounded types node n :
  n ∈ schema_nodes types node ->
  bounded (schema_names types node) (schema_height types node) n.
Proof.
  intros Hin. split.
  - apply max_list_elem_of_le, list_elem_of_fmap. eauto.
  - intros name Hname. apply elem_of_union_list. exists (node_names n).
    split; [|done]. apply list_elem_of_fmap. eauto.
Qed.

(** [skip_fuel] is enough whatever the memo table holds. *)
Lemma createSkipFn_skip_fuel types node sc :
  is_Some (createSkipFn (skip_fuel types node) types node sc).
Proof.
  apply (createSkipFn_enough types (schema_names types node) (schema_height types node)).
  - intros name n Hn. apply schema_nodes_bounded. unfold schema_nodes.
    apply elem_of_cons. right. apply list_elem_of_fmap. exists (name, n).
    split; [done|]. by apply elem_of_map_to_list.
  - apply schema_nodes_bounded. unfold schema_nodes. apply elem_of_cons. by left.
  - unfold skip_fuel.
    assert (remaining (schema_names types node) sc <= size (schema_names types node))%nat as Hle.
    { apply subseteq_size. intros n Hn. by apply elem_of_difference in Hn as [? _]. }
    nia.
Qed.

(** From a sound log, at most one compilation per named type of the schema
    is added. *)
Lemma createSkipFn_count types node sc plan sc' :
  log_ok sc ->
  createSkipFn (skip_fuel types node) types node sc = Some (plan, sc') ->
  NoDup (skip_compilations sc') /\
  (length (skip_compilations sc')
   <= length (skip_compilations sc) + size (schema_names types node))%nat.
Proof.
  intros Hok Hs. destruct (createSkipFn_grows _ _ _ _ _ _ Hs) as [_ Hlog].
  destruct (Hlog Hok) as [Hnd _]. split; [done|].
  assert (logs_within (schema_names types node) sc sc') as Hw.
  { eapply (createSkipFn_logs_within types); [| |exact Hs].
    - intros name n Hn. apply schema_nodes_bounded. unfold schema_nodes.
      apply elem_of_cons. right. apply list_elem_of_fmap. exists (name, n).
      split; [done|]. by apply elem_of_map_to_list.
    - apply schema_nodes_bounded. unfold schema_nodes. apply elem_of_cons. by left. }
  unfold size, set_size. simpl. rewrite <- length_app.
  apply submseteq_length, NoDup_submseteq; [done|].
  intros n Hn. apply elem_of_app. destruct (Hw _ Hn) as [?|?]; [by left|right].
  by apply elem_of_elements.
Qed.

End SkipFacts.

(** * Properties of plan compilation *)

Section PlanFacts.
Context {Column Decoder DataType : Type}.
Variable concatPath : string -> string -> string.
Variable createDeserializeFn : SchemaNode -> DataType -> option (DeserializeFn Column Decoder).
Variable skipFn : SkipPlan -> SkipFn Decoder.
Variable header : Block DataType.
Variable schema : ValidSchema.
Implicit Types (this : AvroDeserializer Column Decoder) (node : SchemaNode).

Abbreviation fields_of := (createFields concatPath createDeserializeFn skipFn header schema).
Abbreviation action_of := (field_action concatPath createDeserializeFn skipFn header).
Abbreviation decodable := (field_decodable concatPath createDeserializeFn header).
Abbreviation columns_of := (field_columns concatPath header).

(** ** The header *)

Lemma find_column_Some p idx column :
  find_column header p = Some (idx, column) <->
  header !! idx = Some column /\ column.1 = p /\
  (forall j c, header !! j = Some c -> (j < idx)%nat -> c.1 <> p).
Proof. unfold find_column. by rewrite list_find_Some. Qed.

Lemma find_column_None p i c :
  find_column header p = None -> header !! i = Some c -> c.1 <> p.
Proof.
  unfold find_column. intros Hf Hl. apply list_find_None in Hf.
  eapply (proj1 (Forall_lookup _ _) Hf); eauto.
Qed.

Lemma mark_all_lookup (found : list bool) (marks : list nat) i :
  mark_all found marks !! i = Some true <->
  found !! i = Some true \/ (i ∈ marks /\ (i < length found)%nat).
Proof.
  unfold mark_all. revert found. induction marks as [|m r IH]; intros found; simpl.
  - split; [auto|]. intros [?|[Hin _]]; [done|]. by apply elem_of_nil in Hin.
  - rewrite IH, length_insert. destruct (decide (m = i)) as [->|Hne].
    + split.
      * intros [Hl|[Hin Hlt]].
        -- apply lookup_lt_Some in Hl. rewrite length_insert in Hl.
           right. split; [by left|done].
        -- right. split; [by right|done].
      * intros [Hl|[Hin Hlt]]; left.
        -- apply lookup_lt_Some in Hl. by apply list_lookup_insert_eq.
        -- by apply list_lookup_insert_eq.
    + rewrite list_lookup_insert_ne by done. split.
      * intros [Hl|[Hin Hlt]]; [by left|]. right. split; [by right|done].
      * intros [Hl|[Hin Hlt]]; [by left|]. right. split; [|done].
        by apply elem_of_cons in Hin as [->|Hin].
Qed.

Lemma mark_all_length (found : list bool) (marks : list nat) :
  length (mark_all found marks) = length found.
Proof.
  unfold mark_all. revert found. induction marks as [|m r IH]; intros found; simpl; [done|].
  by rewrite IH, length_insert.
Qed.

Lemma mark_all_app (found : list bool) (m1 m2 : list nat) :
  mark_all found (m1 ++ m2) = mark_all (mark_all found m1) m2.
Proof. unfold mark_all. apply foldl_app. Qed.

Lemma columns_of_elem fields path i :
  i ∈ columns_of fields path <->
  exists field column,
    field ∈ fields /\ find_column header (concatPath path field.1) = Some (i, column).
Proof.
  unfold field_columns. rewrite list_elem_of_omap. split.
  - intros (field & Hin & Hf).
    destruct (find_column header (concatPath path field.1)) as [[j c]|] eqn:Hfind; [|done].
    simpl in Hf. injection Hf as ->. eauto.
  - intros (field & c & Hin & Hf). exists field. split; [done|]. by rewrite Hf.
Qed.

Lemma columns_of_lt fields path i :
  i ∈ columns_of fields path -> (i < length header)%nat.
Proof.
  intros Hin. apply columns_of_elem in Hin as (field & c & _ & Hf).
  apply find_column_Some in Hf as (Hl & _). by apply lookup_lt_Some in Hl.
Qed.

(** ** The loop over the fields *)

Lemma createFields_spec fields path :
  forall this,
    match fields_of fields path this with
    | Ok (actions, this') =>
        Forall2 (action_of path) fields actions
        /\ grows (skip_compiler this) (skip_compiler this')
        /\ column_found this' = mark_all (column_found this) (columns_of fields path)
    | Failed e => e = TypeMismatch /\ Exists (fun field => ~ decodable path field) fields
    | OutOfFuel => False
    end.
Proof.
  induction fields as [|[f child] rest IH]; intros this.
  - simpl. split_and!; [constructor|apply grows_refl|done].
  - cbn [createFields]. unfold field_action, field_decodable, field_columns in *.
    cbn [omap list_omap fst snd].
    destruct (find_column header (concatPath path f)) as [[idx [n ty]]|] eqn:Hfind.
    + destruct (createDeserializeFn child ty) as [fn|] eqn:Hfn.
      * specialize (IH (mark_found idx this)).
        destruct (fields_of rest path (mark_found idx this)) as [[actions this2]|e|];
          [|destruct IH as [-> IH]; split; [done|by apply Exists_cons_tl]|done].
        destruct IH as (IH1 & IH2 & IH3). split_and!; [|done|done].
        constructor; [|done]. cbn [fst snd]. rewrite Hfind. eauto.
      * split; [done|]. apply Exists_cons_hd. cbn [fst snd]. rewrite Hfind, Hfn.
        by intros [? ?].
    + destruct (createSkipFn_skip_fuel (named_types schema) child (skip_compiler this))
        as [[plan sc] Hs]. rewrite Hs.
      specialize (IH (with_skip_compiler sc this)).
      destruct (fields_of rest path (with_skip_compiler sc this)) as [[actions this2]|e|];
        [|destruct IH as [-> IH]; split; [done|by apply Exists_cons_tl]|done].
      destruct IH as (IH1 & IH2 & IH3). split_and!; [| |done].
      * constructor; [|done]. cbn [fst snd]. rewrite Hfind. eauto.
      * eapply grows_trans; [|exact IH2]. eapply createSkipFn_grows; eauto.
Qed.

Lemma action_of_decodable fields path (actions : list (Action Column Decoder)) :
  Forall2 (action_of path) fields actions -> Forall (decodable path) fields.
Proof.
  induction 1 as [|field action fields actions Hfa _ IH]; constructor; [|done].
  unfold field_action, field_decodable in *.
  destruct (find_column header (concatPath path field.1)) as [[idx [n ty]]|]; [|done].
  destruct Hfa as (fn & -> & _). eauto.
Qed.

Lemma action_of_targets fields path (actions : list (Action Column Decoder)) :
  Forall2 (action_of path) fields actions ->
  targets (Record_ actions) = Z.of_nat <$> columns_of fields path.
Proof.
  rewrite targets_Record. unfold field_columns.
  induction 1 as [|field action fields actions Hfa _ IH]; [done|].
  change (mjoin (targets <$> action :: actions))
    with (targets action ++ mjoin (targets <$> actions)).
  rewrite IH. unfold field_action in Hfa. cbn [omap list_omap].
  destruct (find_column header (concatPath path field.1)) as [[idx [n ty]]|].
  - by destruct Hfa as (fn & _ & ->).
  - by destruct Hfa as (plan & ->).
Qed.

(** ** The constructor *)

Abbreviation construct :=
  (newAvroDeserializer concatPath createDeserializeFn skipFn header schema).

(** What a constructed deserializer is made of. *)
Lemma construct_Ok allow plan :
  construct allow = Ok plan ->
  exists name fields actions,
    root schema = RecordNode name fields
    /\ row_action plan = Record_ actions
    /\ Forall2 (action_of root_path) fields actions
    /\ column_found plan = mark_all (replicate (length header) false)
                                    (columns_of fields root_path)
    /\ log_ok (skip_compiler plan)
    /\ (allow = false ->
        forallb (field_matched concatPath header root_path) fields = true /\
        forallb id (column_found plan) = true).
Proof.
  unfold newAvroDeserializer, createAction.
  destruct (root schema) as [|name fields| | | | | |]; try done.
  pose proof (createFields_spec fields root_path
    (mkDeserializer (replicate (length header) false) Noop (mkSkipCompiler ∅ []))) as Hw.
  destruct (fields_of fields root_path _) as [[actions this1]|e|]; [|done..].
  destruct Hw as (Hfa & [_ Hlog] & Hfound).
  destruct (allow || _) eqn:Hflag; [|done]. intros [= <-].
  exists name, fields, actions. cbn [row_action column_found skip_compiler].
  split_and!; try done.
  - apply Hlog. split; [constructor|]. intros n Hn. by apply elem_of_nil in Hn.
  - intros ->. simpl in Hflag. by apply andb_prop in Hflag.
Qed.

(** Construction never runs out of fuel. *)
Lemma construct_total allow : construct allow <> OutOfFuel.
Proof.
  unfold newAvroDeserializer, createAction.
  destruct (root schema) as [|name fields| | | | | |]; try done.
  pose proof (createFields_spec fields root_path
    (mkDeserializer (replicate (length header) false) Noop (mkSkipCompiler ∅ []))) as Hw.
  destruct (fields_of fields root_path _) as [[actions this1]|e|]; [|done..].
  by destruct (allow || _).
Qed.

(** With the flag, construction succeeds whenever the matched fields are
    decodable; a matched field that is not fails it with or without the
    flag. *)
Lemma construct_allowing name fields :
  root schema = RecordNode name fields ->
  Forall (decodable root_path) fields ->
  exists plan, construct true = Ok plan.
Proof.
  intros Hroot Hdec. unfold newAvroDeserializer, createAction. rewrite Hroot.
  pose proof (createFields_spec fields root_path
    (mkDeserializer (replicate (length header) false) Noop (mkSkipCompiler ∅ []))) as Hw.
  destruct (fields_of fields root_path _) as [[actions this1]|e|]; [eauto| |done].
  destruct Hw as [_ Hex]. apply Exists_exists in Hex as (field & Hin & Hnot).
  destruct Hnot. by apply (proj1 (Forall_forall _ _) Hdec).
Qed.

Lemma construct_mismatch name fields allow :
  root schema = RecordNode name fields ->
  Exists (fun field => ~ decodable root_path field) fields ->
  construct allow = Failed TypeMismatch.
Proof.
  intros Hroot Hex. unfold newAvroDeserializer, createAction. rewrite Hroot.
  pose proof (createFields_spec fields root_path
    (mkDeserializer (replicate (length header) false) Noop (mkSkipCompiler ∅ []))) as Hw.
  destruct (fields_of fields root_path _) as [[actions this1]|e|]; [|by destruct Hw as [-> _]|done].
  destruct Hw as (Hfa & _). apply action_of_decodable in Hfa.
  apply Exists_exists in Hex as (field & Hin & Hnot).
  destruct Hnot. by apply (proj1 (Forall_forall _ _) Hfa).
Qed.

(** Without the flag, and with the matched fields decodable, the result is
    decided by the two tests of the constructor. *)
Lemma construct_strict name fields :
  root schema = RecordNode name fields ->
  Forall (decodable root_path) fields ->
  match construct false with
  | Ok plan =>
      construct true = Ok plan
      /\ forallb (field_matched concatPath header root_path) fields = true
      /\ forallb id (column_found plan) = true
  | Failed e =>
      e = MissingRequiredField
      /\ (forallb (field_matched concatPath header root_path) fields = false
          \/ exists plan, construct true = Ok plan /\ forallb id (column_found plan) = false)
  | OutOfFuel => False
  end.
Proof.
  intros Hroot Hdec. unfold newAvroDeserializer, createAction. rewrite Hroot.
  pose proof (createFields_spec fields root_path
    (mkDeserializer (replicate (length header) false) Noop (mkSkipCompiler ∅ []))) as Hw.
  destruct (fields_of fields root_path _) as [[actions this1]|e|]; [| |done].
  - cbn [orb]. destruct (forallb (field_matched _ _ _) fields); cbn [andb]; [|by split; [|left]].
    destruct (forallb id (column_found this1)) eqn:Hall; [done|].
    split; [done|]. right. eexists. split; [done|]. done.
  - destruct Hw as [_ Hex]. apply Exists_exists in Hex as (field & Hin & Hnot).
    destruct Hnot. by apply (proj1 (Forall_forall _ _) Hdec).
Qed.

Lemma construct_found allow plan name fields i :
  construct allow = Ok plan ->
  root schema = RecordNode name fields ->
  column_found plan !! i = Some true <-> i ∈ columns_of fields root_path.
Proof.
  intros Hc Hroot. destruct (construct_Ok _ _ Hc) as (n & fs & acts & Hr & _ & _ & F & _).
  rewrite Hroot in Hr. injection Hr as <- <-.
  rewrite F, mark_all_lookup, length_replicate. split.
  - intros [Hl|[Hin _]]; [|done]. apply lookup_replicate in Hl as [? _]. done.
  - intros Hin. right. split; [done|]. by eapply columns_of_lt.
Qed.

Lemma construct_length allow plan :
  construct allow = Ok plan -> length (column_found plan) = length header.
Proof.
  intros Hc. destruct (construct_Ok _ _ Hc) as (n & fs & acts & _ & _ & _ & F & _).
  by rewrite F, mark_all_length, length_replicate.
Qed.

(** Executing the plan leaves alone every column that no field matches. *)
Lemma construct_frame `{!AvroDecoder Decoder} `{!ErrorCodes} allow plan i st st' o :
  construct allow = Ok plan ->
  column_found plan !! i <> Some true ->
  execute (row_action plan) st = Finished st' o ->
  columns st' !! i = columns st !! i /\
  read_columns (ext st') !! i = read_columns (ext st) !! i.
Proof.
  intros Hc Hnot Hex.
  destruct (construct_Ok _ _ Hc) as (n & fs & acts & Hr & Ha & Hfa & _).
  destruct (execute_frame _ _ _ _ Hex) as (_ & _ & _ & Fr). apply Fr.
  intros Hin. apply Hnot. apply (construct_found _ _ _ _ _ Hc Hr).
  rewrite Ha, (action_of_targets _ _ _ Hfa) in Hin.
  apply list_elem_of_fmap in Hin as (j & Hj & Hin). by apply Nat2Z.inj in Hj as ->.
Qed.

Lemma record_paths_in_schema node path p :
  p ∈ record_field_paths concatPath node path ->
  p ∈ schema_field_paths concatPath node path.
Proof.
  destruct node as [|name fields| | | | | |]; simpl; try (intros Hin; by apply elem_of_nil in Hin).
  induction fields as [|[f child] rest IH]; simpl; [done|].
  intros Hin. apply elem_of_cons in Hin as [->|Hin]; [by left|].
  right. apply elem_of_app. right. by apply IH.
Qed.

End PlanFacts.

(** ** The found bitmap and missing fields *)

Section ConstructorFacts.
Context {Column Decoder DataType : Type} `{!AvroDecoder Decoder} `{!ErrorCodes}.
Variable concatPath : string -> string -> string.
Variable createDeserializeFn : SchemaNode -> DataType -> option (DeserializeFn Column Decoder).
Variable skipFn : SkipPlan -> SkipFn Decoder.
Variable header : Block DataType.
Variable schema : ValidSchema.

Abbreviation construct_with :=
  (newAvroDeserializer concatPath createDeserializeFn skipFn header schema).
Abbreviation matched_columns := (field_columns concatPath header).

Lemma fill_defaults_lookup (insertDefault : Column -> Column)
      (st : ExecState Column Decoder) i :
  read_columns (ext st) !! i <> Some true ->
  fill_defaults insertDefault st !! i = insertDefault <$> columns st !! i.
Proof.
  intros Hflag. unfold fill_defaults. rewrite list_lookup_imap.
  destruct (columns st !! i); [|done]. simpl.
  by destruct (read_columns (ext st) !! i) as [[]|].
Qed.

(** A failure of the construction over a record root is a type mismatch, or
    a missing field without the flag. *)
Lemma construct_failure allow e name fields :
  root schema = RecordNode name fields ->
  construct_with allow = Failed e ->
  e = TypeMismatch \/ (e = MissingRequiredField /\ allow = false).
Proof.
  intros Hroot. unfold newAvroDeserializer, createAction. rewrite Hroot.
  pose proof (createFields_spec concatPath createDeserializeFn skipFn header schema
    fields root_path
    (mkDeserializer (replicate (length header) false) Noop (mkSkipCompiler ∅ []))) as Hw.
  destruct (createFields _ _ _ _ _ _ _ _) as [[actions this1]|e'|]; [| |done].
  - destruct allow; [done|]. cbn [orb]. destruct (_ && _); [done|].
    intros [= <-]. by right.
  - destruct Hw as [-> _]. intros [= <-]. by left.
Qed.

(** A deserializer constructed without the flag has a column for every
    field and a field for every column. *)
Lemma construct_strict_Ok plan name fields :
  root schema = RecordNode name fields ->
  construct_with false = Ok plan ->
  (forall field, field ∈ fields ->
                 is_Some (find_column header (concatPath root_path field.1)))
  /\ (forall i column, header !! i = Some column -> i ∈ matched_columns fields root_path).
Proof.
  intros Hroot Hc.
  destruct (construct_Ok _ _ _ _ _ _ _ Hc) as (n & fs & acts & Hr & _ & _ & _ & _ & Hstrict).
  rewrite Hroot in Hr. injection Hr as <- <-.
  destruct (Hstrict eq_refl) as [Hfields Hcols]. split.
  - intros field Hin. rewrite forallb_forall in Hfields.
    apply list_elem_of_In, Hfields in Hin. unfold field_matched in Hin.
    by apply bool_decide_eq_true in Hin.
  - intros i column Hi. apply (construct_found _ _ _ _ _ _ _ _ _ i Hc Hroot).
    apply lookup_lt_Some in Hi. rewrite <- (construct_length _ _ _ _ _ _ _ Hc) in Hi.
    apply lookup_lt_is_Some in Hi as [b Hb]. rewrite forallb_forall in Hcols.
    assert (b = true) as ->; [|done].
    apply (Hcols b), list_elem_of_In. eapply list_elem_of_lookup_2; eauto.
Qed.



End ConstructorFacts.

(** ** Termination of plan compilation *)


(** * Properties of the deserializer cache *)

Section CacheFacts.
Context {Column Decoder : Type}.
Variable compilePlan : SchemaId -> Outcome (AvroDeserializer Column Decoder).
Implicit Types (this : AvroConfluentRowInputFormat Column Decoder).

Abbreviation get := (getOrCreateDeserializer compilePlan).

Lemma getOrCreateDeserializer_hit schema_id this deserializer :
  deserializer_cache this !! schema_id = Some deserializer ->
  get schema_id this = (Return deserializer, this).
Proof. intros Hhit. unfold getOrCreateDeserializer. by rewrite Hhit. Qed.

Lemma getOrCreateDeserializer_cached schema_id this deserializer this' :
  get schema_id this = (Return deserializer, this') ->
  deserializer_cache this' !! schema_id = Some deserializer.
Proof.
  unfold getOrCreateDeserializer.
  destruct (deserializer_cache this !! schema_id) as [d|] eqn:Hc.
  - by intros [= <- <-].
  - destruct (compilePlan schema_id) as [d|e]; [|done].
    intros [= <- <-]. cbn [deserializer_cache]. apply lookup_insert_eq.
Qed.

Lemma getOrCreateDeserializer_ok schema_id this :
  cache_ok this -> cache_ok (get schema_id this).2.
Proof.
  intros [Hnd Hin]. unfold getOrCreateDeserializer.
  destruct (deserializer_cache this !! schema_id) as [d|] eqn:Hc; [done|].
  destruct (compilePlan schema_id) as [d|e]; [|done].
  unfold cache_ok. cbn [snd plan_compilations deserializer_cache]. split.
  - apply NoDup_app. split_and!; [done| |apply NoDup_singleton].
    intros n Hn Hn'. apply list_elem_of_singleton in Hn' as ->.
    destruct (Hin _ Hn) as [? Hsome]. congruence.
  - intros n Hn. destruct (decide (schema_id = n)) as [->|Hne].
    + rewrite lookup_insert_eq. eauto.
    + rewrite lookup_insert_ne by done. apply Hin.
      apply elem_of_app in Hn as [Hn|Hn]; [done|].
      by apply list_elem_of_singleton in Hn.
Qed.

Lemma read_messages_ok schema_ids this :
  cache_ok this -> cache_ok (read_messages compilePlan schema_ids this).
Proof.
  revert this. induction schema_ids as [|x r IH]; intros this Hok; [done|].
  simpl. by apply IH, getOrCreateDeserializer_ok.
Qed.

(** C8.  The deserializer cache of a reader instance:
    - whatever schema ids the messages of a reader carry, the reader
      compiles a Plan for each id at most once;
    - once a call for a schema id has returned a deserializer, a second call
      for the same id returns the same deserializer and leaves the reader,
      its log of compilations included, as it was: nothing is compiled;
    - a call on one reader instance leaves every other instance as it was;
    - a new reader instance starts from an empty cache, so it compiles a
      Plan for the first id it is asked for, whatever other instances have
      cached. *)
Theorem deserializer_cache_memoizes :
  (forall schema_ids,
      NoDup (plan_compilations
               (read_messages compilePlan schema_ids newAvroConfluentRowInputFormat)))
  /\ (forall schema_id this deserializer this',
        get schema_id this = (Return deserializer, this') ->
        get schema_id this' = (Return deserializer, this'))
  /\ (forall i j schema_id readers o readers',
        reader_call compilePlan i schema_id readers = Some (o, readers') ->
        i <> j -> readers' !! j = readers !! j)
  /\ (forall schema_id deserializer,
        compilePlan schema_id = Return deserializer ->
        get schema_id newAvroConfluentRowInputFormat =
        (Return deserializer, mkConfluent {[schema_id := deserializer]} [schema_id])).
Proof.
  split_and!.
  - intros schema_ids. apply read_messages_ok. split; [constructor|].
    intros n Hn. by apply elem_of_nil in Hn.
  - intros schema_id this d this' Hget.
    by apply getOrCreateDeserializer_hit, (getOrCreateDeserializer_cached _ this).
  - intros i j schema_id readers o readers'. unfold reader_call.
    destruct (readers !! i) as [this|]; [|done].
    destruct (get schema_id this) as [o' this']. intros [= _ <-] Hne.
    by apply list_lookup_insert_ne.
  - intros schema_id d Hc. unfold getOrCreateDeserializer, newAvroConfluentRowInputFormat.
    cbn [deserializer_cache plan_compilations]. rewrite lookup_empty, Hc.
    by rewrite insert_empty.
Qed.

End CacheFacts.

(** * Further properties of [Action::execute] *)

Section ExecuteMore.
Context {Column Decoder : Type} `{!AvroDecoder Decoder} `{!ErrorCodes}.
Implicit Types (a : Action Column Decoder) (st : ExecState Column Decoder).

Lemma union_free_Record (l : list (Action Column Decoder)) :
  union_free (Record_ l) = forallb union_free l.
Proof. simpl. induction l as [|x r IH]; simpl; [done|]. by rewrite IH. Qed.

Lemma inert_Record (l : list (Action Column Decoder)) :
  inert (Record_ l) = forallb inert l.
Proof. simpl. induction l as [|x r IH]; simpl; [done|]. by rewrite IH. Qed.

Lemma leaves_children (l : list (Action Column Decoder)) :
  leaves (Record_ l) = l ≫= leaves /\ leaves (Union l) = l ≫= leaves.
Proof.
  simpl. split; induction l as [|x r IH]; simpl; [done| |done|]; by rewrite IH.
Qed.

Lemma execute_each_app (xs ys : list (Action Column Decoder)) st :
  execute_each (xs ++ ys) st =
  match execute_each xs st with
  | Finished st1 (Return _) => execute_each ys st1
  | stopped => stopped
  end.
Proof.
  revert st. induction xs as [|x r IH]; intros st; simpl; [done|].
  destruct (execute x st) as [st1 [[]|e]|]; [apply IH|done..].
Qed.

Lemma execute_each_frame (l : list (Action Column Decoder)) st st' o :
  execute_each l st = Finished st' o -> frame_of (targets (Record_ l)) st st'.
Proof. rewrite <- execute_Record. apply execute_frame. Qed.

Lemma vector_at_true_lookup (v : list bool) i :
  vector_at v i = Some true <-> 0 <= i /\ v !! Z.to_nat i = Some true.
Proof.
  unfold vector_at. destruct (Z.ltb_spec i 0) as [Hneg|Hpos].
  - split; [done|]. intros [Hi _]. lia.
  - split; [by intros ?|by intros [_ ?]].
Qed.

(** ** Union *)

(** X2.  When [decodeUnionIndex] itself throws, the exception leaves
    [execute]: no branch runs, the columns and the Row Result are as they
    were, and the decoder is where [decodeUnionIndex] left it. *)
Theorem union_index_throws (actions : list (Action Column Decoder)) st decoder' e :
  decodeUnionIndex (decoder st) = (decoder', Throw e) ->
  execute (Union actions) st = Finished (mkState (columns st) decoder' (ext st)) (Throw e).
Proof. intros Hindex. by rewrite execute_Union, Hindex. Qed.

(** ** Record *)

(** X4.  Record Actions compose: executing the record of [xs ++ ys] is
    executing the record of [xs] and, when that returns, the record of [ys]
    from the state it left; when it does not return, the result is its
    result. *)
Theorem record_of_append (xs ys : list (Action Column Decoder)) st :
  execute (Record_ (xs ++ ys)) st =
  match execute (Record_ xs) st with
  | Finished st1 (Return _) => execute (Record_ ys) st1
  | stopped => stopped
  end.
Proof. rewrite !execute_Record, execute_each_app. by destruct (execute_each xs st). Qed.

(** X5.  A record nested as the first child of a record can be flattened:
    the record of [Record_ xs :: ys] behaves as the record of [xs ++ ys]. *)
Theorem record_nested_flattens (xs ys : list (Action Column Decoder)) st :
  execute (Record_ (Record_ xs :: ys)) st = execute (Record_ (xs ++ ys)) st.
Proof.
  rewrite (execute_Record (xs ++ ys)), execute_each_app, execute_Record.
  cbn [execute_each]. by rewrite execute_Record.
Qed.

(** X6.  A tree made of Noop and Record nodes only returns in the state it
    started in: it reads nothing from the decoder and writes nothing. *)
Theorem inert_tree_changes_nothing a st :
  inert a = true -> execute a st = Finished st (Return tt).
Proof.
  revert st. induction a as [| i f | f | l IH | l IH] using Action_forall_ind;
    intros st Hin; try done.
  rewrite inert_Record in Hin. rewrite execute_Record. revert st.
  induction IH as [|x r Hx _ IHr]; intros st; simpl; [done|].
  simpl in Hin. apply andb_prop in Hin as [Hx' Hr'].
  rewrite (Hx st Hx'). by apply IHr.
Qed.

(** ** Columns and flags *)

(** X7.  Whatever way the execution of an action tree finishes, the vector
    of columns has the length it had, and a column changes only at an index
    that some Deserialize node of the tree targets. *)
Theorem execute_keeps_other_columns a st st' o :
  execute a st = Finished st' o ->
  length (columns st') = length (columns st)
  /\ (forall n, Z.of_nat n ∉ targets a -> columns st' !! n = columns st !! n).
Proof.
  intros Hex. destruct (execute_frame _ _ _ _ Hex) as (L & _ & _ & F).
  split; [done|]. intros n Hn. by apply F.
Qed.

(** X8.  When a tree without Union nodes returns, the written flag of every
    column that a Deserialize node of the tree targets is true. *)
Theorem union_free_marks_all_targets a :
  forall st st',
    union_free a = true ->
    execute a st = Finished st' (Return tt) ->
    forall i, i ∈ targets a -> vector_at (read_columns (ext st')) i = Some true.
Proof.
  induction a as [| i f | f | l IH | l IH] using Action_forall_ind;
    intros st st' Hfree Hex j Hj; try (by apply elem_of_nil in Hj); [| |done].
  - apply list_elem_of_singleton in Hj as ->. simpl in Hex.
    destruct (vector_at (columns st) i) as [column|] eqn:Hat; [|done].
    apply vector_at_Some in Hat as [Hi _].
    destruct (f column (decoder st)) as [[column' decoder'] [[]|e]]; [|done].
    destruct (in_bounds _ i) eqn:Hb; [|done]. injection Hex as <-.
    simpl in Hb. apply in_bounds_spec in Hb as [_ Hb].
    apply vector_at_true_lookup. split; [done|].
    unfold set_read, vector_set. cbn [ext read_columns].
    by apply list_lookup_insert_eq.
  - rewrite union_free_Record in Hfree. rewrite execute_Record in Hex.
    rewrite targets_Record in Hj. revert st Hex Hfree Hj.
    induction IH as [|x r Hx _ IHr]; intros st Hex Hfree Hj.
    + by apply elem_of_nil in Hj.
    + simpl in Hex, Hfree, Hj. apply andb_prop in Hfree as [Hfx Hfr].
      destruct (execute x st) as [st1 [[]|e]|] eqn:Hx1; [|done..].
      apply elem_of_app in Hj as [Hj|Hj]; [|by eapply IHr].
      pose proof (Hx _ _ Hfx Hx1 _ Hj) as Hset.
      apply vector_at_true_lookup in Hset as [Hj0 Hset].
      apply vector_at_true_lookup. split; [done|].
      destruct (execute_each_frame _ _ _ _ Hex) as (_ & _ & M & _). by apply M.
Qed.

(** ** Defined behaviour *)

(** X9.  When every column index that a Deserialize node of the tree targets
    is inside the vector of columns and inside the bitmap of written flags,
    executing the tree has defined behaviour: it finishes, by returning or
    by throwing.  The test on the discriminant is what keeps the index into
    the branches of a Union inside the vector. *)
Theorem targets_in_bounds_defined a :
  forall st,
    (forall i, i ∈ targets a ->
               in_bounds (columns st) i = true /\
               in_bounds (read_columns (ext st)) i = true) ->
    exists st' o, execute a st = Finished st' o.
Proof.
  induction a as [| i f | f | l IH | l IH] using Action_forall_ind; intros st Hb.
  - simpl. eauto.
  - destruct (Hb i) as [Hc Hr]; [by apply list_elem_of_singleton|].
    apply in_bounds_spec in Hc as [Hi Hc]. apply lookup_lt_is_Some in Hc as [column Hc].
    simpl. unfold vector_at. destruct (Z.ltb_spec i 0); [lia|]. rewrite Hc.
    destruct (f column (decoder st)) as [[column' decoder'] [[]|e]]; [|eauto].
    simpl. rewrite Hr. eauto.
  - simpl. destruct (f (decoder st)). eauto.
  - rewrite execute_Record. rewrite targets_Record in Hb. revert st Hb.
    induction IH as [|x r Hx _ IHr]; intros st Hb; simpl; [eauto|].
    destruct (Hx st) as (st1 & o & Hx1).
    { intros i Hi. apply Hb. simpl. apply elem_of_app. by left. }
    rewrite Hx1. destruct o as [[]|e]; [|eauto].
    apply IHr. intros i Hi.
    destruct (execute_frame _ _ _ _ Hx1) as (L1 & L2 & _ & _).
    destruct (Hb i) as [Hc Hr]; [simpl; apply elem_of_app; by right|].
    unfold in_bounds in *. by rewrite L1, L2.
  - rewrite execute_Union. rewrite targets_Union in Hb.
    destruct (decodeUnionIndex (decoder st)) as [d [index|e]]; [|eauto].
    destruct (N.leb_spec (N.of_nat (length l)) index); [eauto|].
    rewrite execute_at_lookup.
    destruct (lookup_lt_is_Some_2 l (N.to_nat index)) as [x Hx]; [lia|]. rewrite Hx.
    apply (proj1 (Forall_lookup _ _) IH _ _ Hx). intros i Hi. apply Hb.
    apply list_elem_of_join. exists (targets x). split; [done|].
    apply list_elem_of_fmap. exists x. split; [done|].
    eapply list_elem_of_lookup_2; eauto.
Qed.

(** X10.  Executing a Deserialize Action has no defined behaviour exactly
    when its index is outside the vector of columns, or when the decode
    operation returns and the index is outside the bitmap of written flags:
    neither vector is range-checked, and a short bitmap is only met after
    the value has been decoded. *)
Theorem deserialize_undefined_iff i (f : DeserializeFn Column Decoder) st :
  execute (Deserialize i f) st = Undefined <->
  in_bounds (columns st) i = false \/
  (exists column column' decoder',
      vector_at (columns st) i = Some column /\
      f column (decoder st) = (column', decoder', Return tt) /\
      in_bounds (read_columns (ext st)) i = false).
Proof.
  simpl. split.
  - destruct (vector_at (columns st) i) as [column|] eqn:Hat.
    + destruct (f column (decoder st)) as [[column' decoder'] [[]|e]] eqn:Hf; [|done].
      simpl. destruct (in_bounds (read_columns (ext st)) i) eqn:Hb; [done|].
      intros _. right. by exists column, column', decoder'.
    + intros _. left. unfold vector_at in Hat. unfold in_bounds.
      destruct (Z.ltb_spec i 0) as [Hneg|Hpos].
      * destruct (Z.leb_spec 0 i); [lia|done].
      * apply lookup_ge_None in Hat. apply andb_false_iff. right.
        apply Z.ltb_ge. lia.
  - intros [Hout|(column & column' & decoder' & Hat & Hf & Hb)].
    + destruct (vector_at (columns st) i) as [column|] eqn:Hat; [|done].
      apply vector_at_Some in Hat as [Hi Hat]. apply lookup_lt_Some in Hat.
      assert (in_bounds (columns st) i = true) by (apply in_bounds_spec; lia).
      congruence.
    + rewrite Hat, Hf. simpl. by rewrite Hb.
Qed.

(** ** Exceptions *)

(** X11.  The only exception that [execute] raises itself is the one for a
    union index out of boundary: any other exception that leaves the
    execution of a tree was thrown by the decode operation of a Deserialize
    leaf of the tree, by the skip operation of a Skip leaf, or by
    [decodeUnionIndex]. *)
Theorem thrown_exception_origin a :
  forall st st' e,
    execute a st = Finished st' (Throw e) ->
    e = mkException "Union index out of boundary" INCORRECT_DATA
    \/ (exists i f column d, Deserialize i f ∈ leaves a /\ (f column d).2 = Throw e)
    \/ (exists f d, Skip f ∈ leaves a /\ (f d).2 = Throw e)
    \/ (exists d, (decodeUnionIndex d).2 = Throw e).
Proof.
  induction a as [| i f | f | l IH | l IH] using Action_forall_ind; intros st st' e.
  - done.
  - simpl. destruct (vector_at (columns st) i) as [column|]; [|done].
    destruct (f column (decoder st)) as [[column' decoder'] [[]|e1]] eqn:Hf.
    + by destruct (in_bounds _ i).
    + intros [= _ <-]. right. left. exists i, f, column, (decoder st).
      split; [by apply list_elem_of_singleton|]. by rewrite Hf.
  - simpl. destruct (f (decoder st)) as [d o] eqn:Hf. intros [= _ ->].
    right. right. left. exists f, (decoder st).
    split; [by apply list_elem_of_singleton|]. by rewrite Hf.
  - rewrite execute_Record, (proj1 (leaves_children l)). revert st.
    induction IH as [|x r Hx _ IHr]; intros st; simpl; [done|].
    destruct (execute x st) as [st1 [[]|e1]|] eqn:Hx1; [| |done].
    + intros Hr. destruct (IHr _ Hr) as [?|[(i & f & c & d & Hin & Hf)|[(f & d & Hin & Hf)|?]]];
        [by left| | |by do 3 right].
      * right. left. exists i, f, c, d. split; [|done]. apply elem_of_app. by right.
      * right. right. left. exists f, d. split; [|done]. apply elem_of_app. by right.
    + intros [= <- <-].
      destruct (Hx _ _ _ Hx1) as [?|[(i & f & c & d & Hin & Hf)|[(f & d & Hin & Hf)|?]]];
        [by left| | |by do 3 right].
      * right. left. exists i, f, c, d. split; [|done]. apply elem_of_app. by left.
      * right. right. left. exists f, d. split; [|done]. apply elem_of_app. by left.
  - rewrite execute_Union, (proj2 (leaves_children l)).
    destruct (decodeUnionIndex (decoder st)) as [d [index|e1]] eqn:Hd.
    + destruct (_ <=? _)%N; [intros [= _ <-]; by left|].
      rewrite execute_at_lookup. destruct (l !! N.to_nat index) as [x|] eqn:Hl; [|done].
      intros Hx.
      assert (forall leaf, leaf ∈ leaves x -> leaf ∈ l ≫= leaves) as Hsub.
      { intros leaf Hleaf. apply list_elem_of_bind. exists x. split; [done|].
        eapply list_elem_of_lookup_2; eauto. }
      destruct (proj1 (Forall_lookup _ _) IH _ _ Hl _ _ _ Hx)
        as [?|[(i & f & c & d' & Hin & Hf)|[(f & d' & Hin & Hf)|?]]];
        [by left| | |by do 3 right].
      * right. left. exists i, f, c, d'. split; [by apply Hsub|done].
      * right. right. left. exists f, d'. split; [by apply Hsub|done].
    + intros [= _ <-]. do 3 right. exists (decoder st). by rewrite Hd.
Qed.

End ExecuteMore.

(** * The properties at concrete inputs *)

Import Demo.

Lemma union_index_out_of_boundary_witness :
  execute (Union [Noop; Deserialize 1 Demo.read_long])
          (Demo.state [[]; []] [2; 9] [false; false]) =
  Finished (Demo.state [[]; []] [9] [false; false])
           (Throw (mkException "Union index out of boundary" 117)).
Proof.
  refine (union_index_out_of_boundary
            [Noop; Deserialize 1 Demo.read_long]
            (Demo.state [[]; []] [2; 9] [false; false]) [9] 2%N _ _).
  - reflexivity.
  - vm_compute. discriminate.
Defined.

Lemma deserialize_writes_column_witness :
  execute (Deserialize 1 Demo.read_long) (Demo.state [[]; [4]] [7; 8] [false; false]) =
  Finished (Demo.state [[]; [4; 7]] [8] [false; true]) (Return tt)
  /\ vector_at [[]; [4; 7]] 1 = Some [4; 7]
  /\ vector_at [false; true] 1 = Some true.
Proof.
  refine (deserialize_writes_column 1 Demo.read_long
            (Demo.state [[]; [4]] [7; 8] [false; false]) [4] [4; 7] [8] _ _ _);
    reflexivity.
Defined.

Lemma deserialize_throw_keeps_flags_witness :
  execute (Deserialize 1 Demo.read_long) (Demo.state [[]; [4]] [] [true; false]) =
  Finished (Demo.state [[]; [4]] [] [true; false]) (Throw Demo.end_of_stream).
Proof.
  refine (deserialize_throw_keeps_flags 1 Demo.read_long
            (Demo.state [[]; [4]] [] [true; false]) [4] [4] [] Demo.end_of_stream _ _);
    reflexivity.
Defined.

Lemma execute_only_sets_flags_witness :
  (forall n, [true; false; false] !! n = Some true -> [true; false; true] !! n = Some true)
  /\ length [true; false; true] = length [true; false; false]
  /\ (forall n, Z.of_nat n ∉ [2] -> [true; false; true] !! n = [true; false; false] !! n)
  /\ ([2] = [] -> mkExt [true; false; true] = mkExt [true; false; false]).
Proof.
  refine (execute_only_sets_flags
            (Record_ [Skip Demo.skip_long; Union [Noop; Deserialize 2 Demo.read_long]])
            (Demo.state [[]; []; []] [5; 1; 6] [true; false; false])
            (Demo.state [[]; []; [6]] [] [true; false; true]) (Return tt) _).
  reflexivity.
Defined.

Lemma record_runs_children_in_order_witness :
  execute (Record_ [Deserialize 0 read_long; Skip skip_long; Deserialize 1 read_long])
          (state [[]; []] [7; 8; 9] [false; false]) =
  Finished (state [[7]; [9]] [] [true; true]) (Return tt).
Proof.
  apply (proj2 (record_runs_children_in_order
                  [Deserialize 0 read_long; Skip skip_long; Deserialize 1 read_long]
                  (state [[]; []] [7; 8; 9] [false; false])
                  (state [[7]; [9]] [] [true; true]))).
  refine (fields_run_next _ _ _ (state [[7]; []] [8; 9] [true; false]) _ _ _).
  { exact (runs_Deserialize 0 read_long (state [[]; []] [7; 8; 9] [false; false])
                            [] [7] [8; 9] eq_refl eq_refl eq_refl). }
  refine (fields_run_next _ _ _ (state [[7]; []] [9] [true; false]) _ _ _).
  { exact (runs_Skip skip_long (state [[7]; []] [8; 9] [true; false]) [9] eq_refl). }
  refine (fields_run_next _ _ _ (state [[7]; [9]] [] [true; true]) _ _ _).
  { exact (runs_Deserialize 1 read_long (state [[7]; []] [9] [true; false])
                            [] [9] [] eq_refl eq_refl eq_refl). }
  apply fields_run_none.
Defined.

(** The row schema against the header with the one column [id]: the list
    field matches no column and is skipped as a whole, and [LinkedList] is
    the only skip logic compiled by name. *)
Example demo_skip_compilations :
  match compile_demo [("id", tt)] true with
  | Ok plan =>
      column_found plan = [true]
      /\ skip_compilations (skip_compiler plan) = ["LinkedList"]
      /\ symbolic_skip_fn_map (skip_compiler plan) !! "LinkedList" =
         Some (Built (SkipRecord [SkipPrimitive AVRO_LONG;
                                  SkipUnion [SkipPrimitive AVRO_NULL;
                                             SkipNamed "LinkedList"]]))
  | _ => False
  end.
Proof. vm_compute. auto. Qed.

Example demo_self_reference :
  createSkipFn (skip_fuel (named_types row_schema) linked_list)
               (named_types row_schema) linked_list (mkSkipCompiler ∅ []) =
  Some (SkipNamed "LinkedList",
        mkSkipCompiler
          {["LinkedList" :=
              Built (SkipRecord [SkipPrimitive AVRO_LONG;
                                 SkipUnion [SkipPrimitive AVRO_NULL;
                                            SkipNamed "LinkedList"]])]}
          ["LinkedList"]).
Proof. vm_compute. reflexivity. Qed.

Example demo_read_messages :
  plan_compilations (read_messages demo_plan [1; 2; 1; 200; 2; 1]%N
                                   newAvroConfluentRowInputFormat) = [1; 2]%N.
Proof. vm_compute. reflexivity. Qed.






Lemma deserializer_cache_memoizes_witness :
  NoDup (plan_compilations (read_messages demo_plan [1; 2; 1; 200; 2; 1]%N
                                          newAvroConfluentRowInputFormat))
  /\ (forall this deserializer this',
        getOrCreateDeserializer demo_plan 1%N this = (Return deserializer, this') ->
        getOrCreateDeserializer demo_plan 1%N this' = (Return deserializer, this'))
  /\ match reader_call demo_plan 0 1%N
                       [newAvroConfluentRowInputFormat; newAvroConfluentRowInputFormat] with
     | Some (_, readers') => readers' !! 1%nat = Some newAvroConfluentRowInputFormat
     | None => False
     end.
Proof.
  destruct (deserializer_cache_memoizes demo_plan) as (Honce & Hsecond & Hother & Hfresh).
  split_and!.
  - apply Honce.
  - apply Hsecond.
  - destruct (reader_call demo_plan 0 1%N
                [newAvroConfluentRowInputFormat; newAvroConfluentRowInputFormat])
      as [[o readers']|] eqn:Hcall; [|vm_compute in Hcall; discriminate].
    by rewrite (Hother 0%nat 1%nat _ _ _ _ Hcall).
Defined.

Lemma union_index_dispatch_witness :
  execute (Union [Noop; Deserialize 1 read_long]) (state [[]; []] [1; 9] [false; false]) =
  execute (Deserialize 1 read_long) (state [[]; []] [9] [false; false]).
Proof.
  refine (union_index_dispatch [Noop; Deserialize 1 read_long]
            (state [[]; []] [1; 9] [false; false]) [9] 1%N
            (Deserialize 1 read_long) _ _); reflexivity.
Defined.

Lemma union_index_throws_witness :
  execute (Union [Noop; Deserialize 1 read_long]) (state [[]; [4]] [] [true; false]) =
  Finished (state [[]; [4]] [] [true; false]) (Throw end_of_stream).
Proof.
  refine (union_index_throws [Noop; Deserialize 1 read_long]
            (state [[]; [4]] [] [true; false]) [] end_of_stream _).
  reflexivity.
Defined.

Lemma inert_tree_changes_nothing_witness :
  execute (Record_ [Noop; Record_ [Noop; Noop]; Record_ []])
          (state [[3]] [5; 6] [false]) =
  Finished (state [[3]] [5; 6] [false]) (Return tt).
Proof.
  refine (inert_tree_changes_nothing (Record_ [Noop; Record_ [Noop; Noop]; Record_ []])
            (state [[3]] [5; 6] [false]) _).
  reflexivity.
Defined.

Lemma execute_keeps_other_columns_witness :
  length [[1]; []; [6]] = length [[1]; []; []]
  /\ (forall n, Z.of_nat n ∉ [2] -> [[1]; []; [6]] !! n = [[1]; []; []] !! n).
Proof.
  refine (execute_keeps_other_columns
            (Record_ [Skip skip_long; Union [Noop; Deserialize 2 read_long]])
            (state [[1]; []; []] [5; 1; 6] [true; false; false])
            (state [[1]; []; [6]] [] [true; false; true]) (Return tt) _).
  reflexivity.
Defined.

Lemma union_free_marks_all_targets_witness :
  vector_at [true; false; true] 0 = Some true
  /\ vector_at [true; false; true] 2 = Some true.
Proof.
  pose proof (union_free_marks_all_targets
                (Record_ [Deserialize 0 read_long; Skip skip_long;
                          Record_ [Deserialize 2 read_long]])
                (state [[]; []; []] [7; 8; 9] [false; false; false])
                (state [[7]; []; [9]] [] [true; false; true])
                eq_refl eq_refl) as Hmarked.
  split; apply Hmarked.
  - change (0 ∈ [0; 2]). by left.
  - change (2 ∈ [0; 2]). right. by left.
Defined.

Lemma targets_in_bounds_defined_witness :
  exists st' o,
    execute (Record_ [Deserialize 0 read_long; Union [Noop; Deserialize 1 read_long]])
            (state [[]; []] [7; 5] [false; false]) = Finished st' o.
Proof.
  refine (targets_in_bounds_defined
            (Record_ [Deserialize 0 read_long; Union [Noop; Deserialize 1 read_long]])
            (state [[]; []] [7; 5] [false; false]) _).
  intros i Hi. change (i ∈ [0; 1]) in Hi.
  apply elem_of_cons in Hi as [->|Hi]; [by split|].
  apply list_elem_of_singleton in Hi as ->. by split.
Defined.

Lemma thrown_exception_origin_witness :
  end_of_stream = mkException "Union index out of boundary" 117
  \/ (exists i f column d,
        Deserialize i f ∈ leaves (Record_ [Skip skip_long; Deserialize 0 read_long])
        /\ (f column d).2 = Throw end_of_stream)
  \/ (exists f d,
        Skip f ∈ leaves (Record_ [Skip skip_long; Deserialize 0 read_long])
        /\ (f d).2 = Throw end_of_stream)
  \/ (exists d, (decodeUnionIndex d).2 = Throw end_of_stream).
Proof.
  refine (thrown_exception_origin
            (Record_ [Skip skip_long; Deserialize 0 read_long])
            (state [[]] [4] [false]) (state [[]] [] [false]) end_of_stream _).
  reflexivity.
Defined.
